(** * Realtime Player Stats API: connection manager and mutation handlers

    A shallow embedding of [backend/main.py].  The file has two layers.

    - The first layer embeds the connection manager, the mutation handlers
      and the WebSocket endpoint as computations over the process state
      (player table, listener registry, lock) in a state-and-exception
      monad.  The outside world (the WebSocket transport, the uuid
      generator, and the conversions between text and numbers that SQLite
      and Python make) is an oracle [Env].
    - The second layer is the asyncio event loop: tasks run the code of the
      first layer from one suspension point to the next, and the loop
      interleaves them arbitrarily.  A task that the loop runs with nothing
      in between does what the first layer says of a single call
      ([handler_runs_alone], [endpoint_runs_alone]). *)

From Stdlib Require Import ZArith.
From Stdlib Require Import Floats.PrimFloat Floats.SpecFloat Floats.FloatOps.
From stdpp Require Import gmap strings list fin_maps pretty.

Set Warnings "-register-all,-inexact-float".
Set Default Proof Using "Type".

(** ** Python values *)

(** JSON-like Python values: what a [Dict[str, Any]] request body holds and
    what [send_json] is given.  Python [float] is IEEE binary64. *)
Inductive PyVal : Type :=
| VNone
| VBool (b : bool)
| VInt (z : Z)
| VFloat (f : float)
| VStr (s : string)
| VList (l : list PyVal)
| VDict (d : gmap string PyVal).

Abbreviation Dict := (gmap string PyVal).

(** Exceptions raised by the code or by the libraries it calls.  All of them
    derive from [Exception]; cancellation of the running task, which is a
    [BaseException], is not a failure of a channel and is not modelled.
    [IntegrityError], [ProgrammingError] and [StatementError] are those of
    [sqlalchemy.exc]: the first two wrap the error of [sqlite3] with the
    same name, the third wraps an exception raised while the parameters of
    a statement are prepared.  [OverflowError] is raised by [sqlite3] when
    it binds a parameter and is not wrapped. *)
Inductive PyExc : Type :=
| KeyError (key : string)
| TypeError
| ValueError
| RuntimeError
| OverflowError
| IntegrityError
| ProgrammingError
| StatementError
| WebSocketDisconnect
| HTTPException (status_code : Z) (detail : string).

(** The result of awaiting a coroutine: it returns, it raises, or it never
    completes ([Pending]: the awaited future is never resolved). *)
Inductive Outcome (A : Type) : Type :=
| Returned (a : A)
| Raised (e : PyExc)
| Pending.
Arguments Returned {A} a.
Arguments Raised {A} e.
Arguments Pending {A}.

(** ** Database models *)

Module StatsBase.
Record t : Type := Build
  { matches : Z;
    runs_or_goals : Z;
    average : float }.
End StatsBase.

(** A [Player] object, and a row of the [player] table.  [id] is always
    the string made by the default factory.  On an object the other
    attributes hold whatever value was assigned (a [table=True] model is not
    validated on construction); in the table they hold what SQLite stored
    for it ([insert_commit], [update_commit]), which is what [refresh] reads
    back. *)
Module Player.
Record t : Type := Build
  { id : string;
    name : PyVal;
    sport : PyVal;
    team : PyVal;
    age : PyVal;
    matches : PyVal;
    runs_or_goals : PyVal;
    average : PyVal }.
End Player.

(** ** Values in the database *)

(** The storage classes of SQLite that [sqlite3] writes and reads. *)
Inductive SqlVal : Type :=
| SNull
| SInteger (z : Z)
| SReal (f : float)
| SText (s : string).

(** ** Process state *)

(** A [WebSocket] object, compared by identity ([in], [list.remove]). *)
Definition WebSocket : Type := nat.

(** Observable effects, oldest first. *)
Inductive Event : Type :=
| Commit (table : list Player.t)
    (* session.commit() returned, leaving the table as given *)
| Broadcast (message : Dict)
    (* manager.broadcast(message) was called *)
| Send (websocket : WebSocket) (message : Dict) (r : Outcome unit).
    (* websocket.send_json(message) was called, and how that call ends *)

Record World : Type := BuildWorld
  { players : list Player.t;              (* rows of the player table *)
    active_connections : list WebSocket;  (* manager.active_connections *)
    lock : bool;                          (* manager.lock.locked() *)
    trace : list Event }.

(** The environment: how the transport answers and which uuid comes next,
    as functions of what has happened so far; and the conversions between
    text and numbers that are left to the libraries. *)
Record Env : Type := BuildEnv
  { accept_result : list Event → WebSocket → Outcome unit;
    send_result : list Event → WebSocket → Dict → Outcome unit;
    (* the text frames a client sends, then how its receive ends:
       [Some e] raises [e], [None] stays silent for ever *)
    inbound : WebSocket → list string * option PyExc;
    uuid4 : list Event → string;
    (* Python's [float(s)] on a string; [None] when it raises *)
    float_of_str : string → option float;
    (* the text SQLite stores for a REAL written to a TEXT column *)
    real_text : float → string;
    (* what SQLite stores for a text written to an INTEGER column: an
       INTEGER or a REAL when the text reads as a number, else the text *)
    text_numeric : string → SqlVal }.

(** ** The monad of coroutine bodies *)

Definition M (A : Type) : Type := World → Outcome A * World.

Definition ret {A} (a : A) : M A := λ w, (Returned a, w).
Definition raise {A} (e : PyExc) : M A := λ w, (Raised e, w).
Definition bind {A B} (m : M A) (k : A → M B) : M B := λ w,
  match m w with
  | (Returned a, w') => k a w'
  | (Raised e, w') => (Raised e, w')
  | (Pending, w') => (Pending, w')
  end.

(** A computation without effect on the state. *)
Definition lift {A} (r : Outcome A) : M A := λ w, (r, w).

Declare Scope py_scope.
Delimit Scope py_scope with py.
Bind Scope py_scope with M.
Notation "x <- m ;; k" := (bind m (λ x, k))
  (at level 100, m at next level, right associativity) : py_scope.
Notation "m ;;; k" := (bind m (λ _, k))
  (at level 100, right associativity) : py_scope.
Local Open Scope py_scope.

(** [try: m  except Exception: handler] *)
Definition try_except {A} (m : M A) (handler : PyExc → M A) : M A := λ w,
  match m w with
  | (Raised e, w') => handler e w'
  | r => r
  end.

(** [try: m  except WebSocketDisconnect: handler] *)
Definition try_except_disconnect {A} (m : M A) (handler : M A) : M A := λ w,
  match m w with
  | (Raised WebSocketDisconnect, w') => handler w'
  | r => r
  end.

Definition set_players (t : list Player.t) (w : World) : World :=
  {| players := t; active_connections := active_connections w;
     lock := lock w; trace := trace w |}.
Definition set_active (l : list WebSocket) (w : World) : World :=
  {| players := players w; active_connections := l;
     lock := lock w; trace := trace w |}.
Definition set_lock (b : bool) (w : World) : World :=
  {| players := players w; active_connections := active_connections w;
     lock := b; trace := trace w |}.
Definition emit (e : Event) : M unit := λ w,
  (Returned tt,
   {| players := players w; active_connections := active_connections w;
      lock := lock w; trace := trace w ++ [e] |}).

(** [async with self.lock: body].  Acquiring waits while the lock is held;
    leaving the block releases it, on return and on exception alike.  A body
    that never completes keeps the lock. *)
Definition acquire : M unit := λ w,
  if lock w then (Pending, w) else (Returned tt, set_lock true w).

Definition release : M unit := λ w, (Returned tt, set_lock false w).

Definition async_with_lock {A} (body : M A) : M A :=
  acquire ;;;
  λ w, match body w with
       | (Pending, w') => (Pending, w')
       | (r, w') => (r, set_lock false w')
       end.

(** ** Primitive operations *)

Section Code.
Context (env : Env).

(** [await websocket.accept()] *)
Definition accept (websocket : WebSocket) : M unit := λ w,
  (accept_result env (trace w) websocket, w).

(** [await websocket.send_json(message)].  A channel delivers in the order
    of the calls made on it, so the trace records the call where it is
    made. *)
Definition send_json (websocket : WebSocket) (message : Dict) : M unit := λ w,
  let r := send_result env (trace w) websocket message in
  (r, snd (emit (Send websocket message r) w)).

(** [while True: await websocket.receive_text()]: every frame is dropped;
    the loop ends only when a receive raises. *)
Fixpoint while_true_receive (frames : list string) (closing : option PyExc)
  : M unit :=
  match frames with
  | _text :: rest => while_true_receive rest closing
  | [] => match closing with
          | Some e => raise e
          | None => λ w, (Pending, w)
          end
  end.

Definition receive_loop (websocket : WebSocket) : M unit :=
  while_true_receive (inbound env websocket).1 (inbound env websocket).2.

(** [list.remove(x)]: drops the first occurrence, [ValueError] if none. *)
Fixpoint remove_first (x : WebSocket) (l : list WebSocket)
  : option (list WebSocket) :=
  match l with
  | [] => None
  | y :: l' => if decide (x = y) then Some l'
               else cons y <$> remove_first x l'
  end.

Definition active_remove (x : WebSocket) : M unit := λ w,
  match remove_first x (active_connections w) with
  | Some l => (Returned tt, set_active l w)
  | None => (Raised ValueError, w)
  end.

Definition active_append (x : WebSocket) : M unit := λ w,
  (Returned tt, set_active (active_connections w ++ [x]) w).

Definition get_active : M (list WebSocket) := λ w,
  (Returned (active_connections w), w).

(** ** WebSocket manager *)

Definition connect (websocket : WebSocket) : M unit :=
  accept websocket ;;;
  async_with_lock (active_append websocket).

(** [if websocket in self.active_connections: ....remove(websocket)] *)
Definition remove_if_present (websocket : WebSocket) : M unit :=
  active <- get_active ;;
  if bool_decide (websocket ∈ active) then active_remove websocket
  else ret tt.

Definition disconnect (websocket : WebSocket) : M unit :=
  async_with_lock (remove_if_present websocket).

(** Body of the delivery loop, lines 74-77. *)
Definition send_or_collect (message : Dict) (conn : WebSocket)
    (to_remove : list WebSocket) : M (list WebSocket) :=
  try_except (send_json conn message ;;; ret to_remove)
             (λ _, ret (to_remove ++ [conn])).

(** [for conn in list(self.active_connections): ...] over the copy. *)
Fixpoint deliver (message : Dict) (conns : list WebSocket)
    (to_remove : list WebSocket) : M (list WebSocket) :=
  match conns with
  | [] => ret to_remove
  | conn :: rest =>
      to_remove' <- send_or_collect message conn to_remove ;;
      deliver message rest to_remove'
  end.

(** [for r in to_remove: if r in ...: ....remove(r)] *)
Fixpoint remove_failed (to_remove : list WebSocket) : M unit :=
  match to_remove with
  | [] => ret tt
  | r :: rest => remove_if_present r ;;; remove_failed rest
  end.

Definition broadcast (message : Dict) : M unit :=
  emit (Broadcast message) ;;;
  async_with_lock (
    snapshot <- get_active ;;
    to_remove <- deliver message snapshot [] ;;
    remove_failed to_remove).

(** ** Helper functions *)

Definition player_to_dict (p : Player.t) : Dict :=
  {[ "id" := VStr (Player.id p);
     "name" := Player.name p;
     "sport" := Player.sport p;
     "team" := Player.team p;
     "age" := Player.age p;
     "stats" := VDict {[ "matches" := Player.matches p;
                         "runs_or_goals" := Player.runs_or_goals p;
                         "average" := Player.average p ]} ]}.

(** ** Session operations *)

(** The table has [id] as its primary key. *)
Definition has_id (player_id : string) (p : Player.t) : bool :=
  bool_decide (Player.id p = player_id).

(** [session.get(Player, player_id)] *)
Definition session_get (player_id : string) : M (option Player.t) := λ w,
  (Returned (find (has_id player_id) (players w)), w).

(** [session.exec(select(Player)).all()] *)
Definition select_all : M (list Player.t) := λ w,
  (Returned (players w), w).

Definition commit (t : list Player.t) : M unit := λ w,
  emit (Commit t) (set_players t w).

(** *** What the database makes of a Python value *)

(** SQLite INTEGER is a signed 64-bit integer. *)
Definition int64 (z : Z) : bool := (- 2 ^ 63 <=? z)%Z && (z <? 2 ^ 63)%Z.

(** [float(z)] on a Python int: the nearest double, ties to even; [None]
    when it raises [OverflowError]. *)
Definition float_of_int (z : Z) : option float :=
  let f := SF2Prim (binary_normalize prec emax z 0 false) in
  if is_infinity f then None else Some f.

(** The integer that a double is equal to, if there is one. *)
Definition integer_of_float (f : float) : option Z :=
  match Prim2SF f with
  | S754_zero _ => Some 0%Z
  | S754_finite s m e =>
      let z := if s then Z.neg m else Z.pos m in
      if (0 <=? e)%Z then Some (z * 2 ^ e)%Z
      else if (Z.pos m mod 2 ^ (- e) =? 0)%Z then Some (z / 2 ^ (- e))%Z
      else None
  | _ => None
  end.

(** [processors.to_float], the bind processor of a [Float] column on
    SQLite: [float(value)] unless the value is [None].  It runs when the
    parameters of the statement are prepared; what it raises is wrapped in
    [StatementError]. *)
Definition to_float (v : PyVal) : Outcome PyVal :=
  match v with
  | VNone => Returned VNone
  | VBool b => Returned (VFloat (if b then 1 else 0))
  | VInt z => match float_of_int z with
              | Some f => Returned (VFloat f)
              | None => Raised StatementError
              end
  | VFloat f => Returned (VFloat f)
  | VStr s => match float_of_str env s with
              | Some f => Returned (VFloat f)
              | None => Raised StatementError
              end
  | VList _ | VDict _ => Raised StatementError
  end.

(** How [sqlite3] binds a parameter: a NaN is bound as NULL, an int
    outside 64 bits raises [OverflowError], a list or a dict is not
    supported. *)
Definition adapt (v : PyVal) : Outcome SqlVal :=
  match v with
  | VNone => Returned SNull
  | VBool b => Returned (SInteger (if b then 1 else 0))
  | VInt z => if int64 z then Returned (SInteger z) else Raised OverflowError
  | VFloat f => Returned (if is_nan f then SNull else SReal f)
  | VStr s => Returned (SText s)
  | VList _ | VDict _ => Raised ProgrammingError
  end.

(** Type affinity of a column: what SQLite stores for a value that is
    written to it.  [name], [sport] and [team] are TEXT; [age], [matches]
    and [runs_or_goals] are INTEGER; [average] is REAL. *)
Definition text_affinity (x : SqlVal) : SqlVal :=
  match x with
  | SInteger z => SText (pretty z)
  | SReal f => SText (real_text env f)
  | _ => x
  end.

Definition integer_affinity (x : SqlVal) : SqlVal :=
  match x with
  | SReal f =>
      match integer_of_float f with
      | Some z => if ((- 2 ^ 63 <? z) && (z <? 2 ^ 63))%Z then SInteger z
                  else SReal f
      | None => SReal f
      end
  | SText s => text_numeric env s
  | _ => x
  end.

(** A double in a REAL column is read back as it was written, except that
    a zero is read back as [0.0], whatever its sign. *)
Definition real_of (f : float) : float :=
  if (f =? 0)%float then 0%float else f.

(** REAL affinity is the numeric conversion with an integer forced to a
    double. *)
Definition real_affinity (x : SqlVal) : SqlVal :=
  match x with
  | SReal f => SReal (real_of f)
  | _ => match integer_affinity x with
         | SInteger z => SReal (SF2Prim (binary_normalize prec emax z 0 false))
         | SReal f => SReal (real_of f)
         | y => y
         end
  end.

(** What [sqlite3] reads back. *)
Definition python_of (x : SqlVal) : PyVal :=
  match x with
  | SNull => VNone
  | SInteger z => VInt z
  | SReal f => VFloat f
  | SText s => VStr s
  end.

Definition is_null (x : SqlVal) : bool :=
  match x with SNull => true | _ => false end.

(** On INSERT, an attribute that is [None] is left out of the statement
    when its column has a default, and the default is stored. *)
Definition or_default (dflt v : PyVal) : PyVal :=
  match v with VNone => dflt | _ => v end.

(** [session.add(p); session.commit(); session.refresh(p)] for a new row.
    The parameters are prepared, then bound in the order of the columns;
    then the statement runs: every column is NOT NULL and the primary key
    must be free.  The result is the row as [refresh] reads it. *)
Definition insert_commit (p : Player.t) : M Player.t :=
  let team := or_default (VStr "") (Player.team p) in
  let age := or_default (VInt 0) (Player.age p) in
  let matches := or_default (VInt 0) (Player.matches p) in
  let runs_or_goals := or_default (VInt 0) (Player.runs_or_goals p) in
  let average := or_default (VFloat 0) (Player.average p) in
  average <- lift (to_float average) ;;
  name <- lift (adapt (Player.name p)) ;;
  sport <- lift (adapt (Player.sport p)) ;;
  team <- lift (adapt team) ;;
  age <- lift (adapt age) ;;
  matches <- lift (adapt matches) ;;
  runs_or_goals <- lift (adapt runs_or_goals) ;;
  average <- lift (adapt average) ;;
  row <- session_get (Player.id p) ;;
  if existsb is_null [name; sport; team; age; matches; runs_or_goals; average]
     || bool_decide (is_Some row)
  then raise IntegrityError
  else
    let q := Player.Build (Player.id p)
               (python_of (text_affinity name))
               (python_of (text_affinity sport))
               (python_of (text_affinity team))
               (python_of (integer_affinity age))
               (python_of (integer_affinity matches))
               (python_of (integer_affinity runs_or_goals))
               (python_of (real_affinity average)) in
    (λ w, commit (players w ++ [q]) w) ;;;
    ret q.

(** [session.add(p); session.commit(); session.refresh(p)] for a row that
    was loaded and whose three statistics were assigned.  The UPDATE sets
    those columns (a column that was assigned a value equal to the one it
    has is left out of the statement, and keeps what the statement would
    store).  The result is the row as [refresh] reads it. *)
Definition update_commit (p : Player.t) : M Player.t :=
  average <- lift (to_float (Player.average p)) ;;
  matches <- lift (adapt (Player.matches p)) ;;
  runs_or_goals <- lift (adapt (Player.runs_or_goals p)) ;;
  average <- lift (adapt average) ;;
  if existsb is_null [matches; runs_or_goals; average]
  then raise IntegrityError
  else
    let q := Player.Build (Player.id p) (Player.name p) (Player.sport p)
               (Player.team p) (Player.age p)
               (python_of (integer_affinity matches))
               (python_of (integer_affinity runs_or_goals))
               (python_of (real_affinity average)) in
    (λ w, commit ((λ r, if has_id (Player.id p) r then q else r)
                    <$> players w) w) ;;;
    ret q.

(** [session.delete(p); session.commit()] *)
Definition delete_commit (p : Player.t) : M unit := λ w,
  commit (filter (λ q, has_id (Player.id p) q = false) (players w)) w.

(** ** Routes *)

(** [d[key]] on a dict *)
Definition getitem (d : Dict) (key : string) : M PyVal :=
  match d !! key with
  | Some v => ret v
  | None => raise (KeyError key)
  end.

(** [v[key]] on any value, with a string key: only a dict can be
    subscripted by a string. *)
Definition subscript (v : PyVal) (key : string) : M PyVal :=
  match v with
  | VDict d => getitem d key
  | _ => raise TypeError
  end.

(** [d.get(key, dflt)] *)
Definition dict_get (d : Dict) (key : string) (dflt : PyVal) : PyVal :=
  default dflt (d !! key).

Definition player_created (p : Player.t) : Dict :=
  {[ "type" := VStr "player_created"; "player" := VDict (player_to_dict p) ]}.
Definition stats_updated (p : Player.t) : Dict :=
  {[ "type" := VStr "stats_updated"; "player" := VDict (player_to_dict p) ]}.
Definition player_deleted (player_id : string) : Dict :=
  {[ "type" := VStr "player_deleted"; "player_id" := VStr player_id ]}.
Definition init_message (all_players : list Player.t) : Dict :=
  {[ "type" := VStr "init";
     "players" := VList (VDict ∘ player_to_dict <$> all_players) ]}.

(** Lines 145-157: build the row and commit it. *)
Definition create_player_commit (data : Dict) : M Player.t :=
  new_id <- (λ w, (Returned (uuid4 env (trace w)), w)) ;;
  name <- getitem data "name" ;;
  sport <- getitem data "sport" ;;
  let team := dict_get data "team" (VStr "") in
  let age := dict_get data "age" (VInt 0) in
  stats <- getitem data "stats" ;;
  matches <- subscript stats "matches" ;;
  stats <- getitem data "stats" ;;
  runs_or_goals <- subscript stats "runs_or_goals" ;;
  stats <- getitem data "stats" ;;
  average <- subscript stats "average" ;;
  let p := Player.Build new_id name sport team age
                        matches runs_or_goals average in
  insert_commit p.

Definition create_player (data : Dict) : M Dict :=
  p <- create_player_commit data ;;
  broadcast (player_created p) ;;;
  ret (player_to_dict p).

(** Lines 163-172: load the row, assign the three fields, commit. *)
Definition update_stats_commit (player_id : string) (stats : StatsBase.t)
  : M Player.t :=
  p <- session_get player_id ;;
  match p with
  | None => raise (HTTPException 404 "Player not found")
  | Some p =>
      let p := Player.Build (Player.id p) (Player.name p) (Player.sport p)
                 (Player.team p) (Player.age p)
                 (VInt (StatsBase.matches stats))
                 (VInt (StatsBase.runs_or_goals stats))
                 (VFloat (StatsBase.average stats)) in
      update_commit p
  end.

Definition update_stats (player_id : string) (stats : StatsBase.t) : M Dict :=
  p <- update_stats_commit player_id stats ;;
  broadcast (stats_updated p) ;;;
  ret (player_to_dict p).

(** Lines 178-183. *)
Definition delete_player_commit (player_id : string) : M unit :=
  p <- session_get player_id ;;
  match p with
  | None => raise (HTTPException 404 "Player not found")
  | Some p => delete_commit p
  end.

Definition delete_player (player_id : string) : M Dict :=
  delete_player_commit player_id ;;;
  broadcast (player_deleted player_id) ;;;
  ret {[ "ok" := VBool true ]}.

Definition get_player (player_id : string) : M Dict :=
  p <- session_get player_id ;;
  match p with
  | None => raise (HTTPException 404 "Player not found")
  | Some p => ret (player_to_dict p)
  end.

Definition websocket_endpoint (websocket : WebSocket) : M unit :=
  connect websocket ;;;
  all_players <- select_all ;;
  send_json websocket (init_message all_players) ;;;
  try_except_disconnect (receive_loop websocket) (disconnect websocket).

End Code.

(** ** Pure views of the registry operations *)

(** What [if x in l: l.remove(x)] leaves of [l]. *)
Definition discard (x : WebSocket) (l : list WebSocket) : list WebSocket :=
  default l (remove_first x l).

Definition discard_all (xs l : list WebSocket) : list WebSocket :=
  foldl (λ acc r, discard r acc) l xs.

Definition is_raised {A} (r : Outcome A) : bool :=
  match r with Raised _ => true | _ => false end.

Definition is_pending {A} (r : Outcome A) : bool :=
  match r with Pending => true | _ => false end.

(** The [Send] events of one pass over [conns], given how each send ended. *)
Definition sends (message : Dict) (conns : list WebSocket)
    (outs : list (Outcome unit)) : list Event :=
  zip_with (λ c o, Send c message o) conns outs.

(** The listeners of [conns] whose send raised. *)
Fixpoint failed (conns : list WebSocket) (outs : list (Outcome unit))
  : list WebSocket :=
  match conns, outs with
  | c :: conns', o :: outs' =>
      if is_raised o then c :: failed conns' outs' else failed conns' outs'
  | _, _ => []
  end.

(** ** Pure view of a broadcast pass *)

(** How the sends of a pass over [conns] end, one after the other, when the
    pass starts with history [tr]: the pass goes no further than a send that
    never completes. *)
Fixpoint outcomes (env : Env) (message : Dict) (conns : list WebSocket)
    (tr : list Event) : list (Outcome unit) :=
  match conns with
  | [] => []
  | c :: rest =>
      let o := send_result env tr c message in
      o :: (if is_pending o then []
            else outcomes env message rest (tr ++ [Send c message o]))
  end.

Definition stalled (outs : list (Outcome unit)) : bool :=
  existsb is_pending outs.

(** ** The event loop *)

(** Tasks are coroutines suspended at an [await].  A task runs from the
    point where it is suspended to its next suspension without interleaving;
    acquiring a free lock, leaving an [async with] block and returning from
    a coroutine do not suspend. *)

(** Where a [websocket_endpoint] coroutine is suspended. *)
Inductive EndpointAt : Type :=
| Accepting       (* line 61: in websocket.accept() *)
| Connecting      (* line 62: accepted, about to take the lock *)
| Receiving       (* line 195: in websocket.receive_text() *)
| Disconnecting   (* line 66: about to take the lock *)
| EndpointEnded (r : Outcome unit).
    (* returned, raised, or suspended for ever *)

(** Where a mutation handler is suspended, after its commit. *)
Inductive HandlerAt : Type :=
| Locking (message : Dict)
    (* line 71: about to take the lock *)
| Sending (message : Dict) (snapshot : list WebSocket) (k : nat)
          (to_remove : list WebSocket)
    (* line 73: holding the lock, [k] listeners of the copy done *)
| HandlerEnded (r : Outcome unit).

Inductive Task : Type :=
| Endpoint (websocket : WebSocket) (at_ : EndpointAt)
| Handler (at_ : HandlerAt).

Inductive Request : Type :=
| CreatePlayer (data : Dict)
| UpdateStats (player_id : string) (stats : StatsBase.t)
| DeletePlayer (player_id : string).

(** The outcome of a computation as a value: what the code after an
    [await] sees. *)
Definition attempt {A} (m : M A) : M (Outcome A) := λ w,
  ((Returned (m w).1), (m w).2).

Definition forget {A} (r : Outcome A) : Outcome unit :=
  match r with
  | Returned _ => Returned tt
  | Raised e => Raised e
  | Pending => Pending
  end.

(** A handler from its entry to the call of [manager.broadcast]. *)
Definition handler_commit (env : Env) (req : Request) : M Dict :=
  match req with
  | CreatePlayer data =>
      p <- create_player_commit env data ;; ret (player_created p)
  | UpdateStats player_id stats =>
      p <- update_stats_commit env player_id stats ;; ret (stats_updated p)
  | DeletePlayer player_id =>
      delete_player_commit player_id ;;; ret (player_deleted player_id)
  end.

Definition start_handler (env : Env) (req : Request) : M HandlerAt :=
  r <- attempt (handler_commit env req) ;;
  match r with
  | Returned message => emit (Broadcast message) ;;; ret (Locking message)
  | r => ret (HandlerEnded (forget r))
  end.

(** Runs an endpoint from where it is suspended to its next suspension.
    [Pending] here means that the task cannot run now. *)
Definition resume_endpoint (env : Env) (websocket : WebSocket)
    (at_ : EndpointAt) : M EndpointAt :=
  match at_ with
  | Accepting =>
      r <- attempt (accept env websocket) ;;
      ret (match r with
           | Returned _ => Connecting
           | r => EndpointEnded r
           end)
  | Connecting =>
      acquire ;;; active_append websocket ;;; release ;;;
      all_players <- select_all ;;
      r <- attempt (send_json env websocket (init_message all_players)) ;;
      ret (match r with
           | Returned _ => Receiving
           | r => EndpointEnded r
           end)
  | Receiving =>
      r <- attempt (receive_loop env websocket) ;;
      ret (match r with
           | Raised WebSocketDisconnect => Disconnecting
           | r => EndpointEnded r
           end)
  | Disconnecting =>
      acquire ;;;
      r <- attempt (remove_if_present websocket) ;;
      release ;;;
      ret (EndpointEnded r)
  | EndpointEnded _ => λ w, (Pending, w)
  end.

(** Runs a handler inside [broadcast] to its next suspension. *)
Definition resume_handler (env : Env) (at_ : HandlerAt) : M HandlerAt :=
  match at_ with
  | Locking message =>
      acquire ;;;
      snapshot <- get_active ;;
      ret (Sending message snapshot 0 [])
  | Sending message snapshot k to_remove =>
      match snapshot !! k with
      | Some conn =>
          r <- attempt (send_or_collect env message conn to_remove) ;;
          match r with
          | Returned to_remove' =>
              ret (Sending message snapshot (S k) to_remove')
          | Raised e => release ;;; ret (HandlerEnded (Raised e))
          | Pending => ret (HandlerEnded Pending)
          end
      | None =>
          r <- attempt (remove_failed to_remove) ;;
          release ;;;
          ret (HandlerEnded r)
      end
  | HandlerEnded _ => λ w, (Pending, w)
  end.

Definition resume (env : Env) (t : Task) : M Task :=
  match t with
  | Endpoint websocket at_ =>
      at' <- resume_endpoint env websocket at_ ;; ret (Endpoint websocket at')
  | Handler at_ =>
      at' <- resume_handler env at_ ;; ret (Handler at')
  end.

Record System : Type := BuildSystem
  { world : World;
    tasks : list Task }.

(** [step i s s']: task [i] runs.  The server starts an endpoint for each
    connection, with a [WebSocket] object of its own, and a handler for each
    mutation request; a task that is resumed runs with whatever the
    environment answers. *)
Inductive step : nat → System → System → Prop :=
| step_open s websocket :
    (∀ i at_, tasks s !! i ≠ Some (Endpoint websocket at_)) →
    step (length (tasks s)) s
      (BuildSystem (world s) (tasks s ++ [Endpoint websocket Accepting]))
| step_request s env req at_ w' :
    start_handler env req (world s) = (Returned at_, w') →
    step (length (tasks s)) s
      (BuildSystem w' (tasks s ++ [Handler at_]))
| step_resume s i env t t' w' :
    tasks s !! i = Some t →
    resume env t (world s) = (Returned t', w') →
    step i s (BuildSystem w' (<[i:=t']> (tasks s))).

Definition steps : System → System → Prop := rtc (λ s s', ∃ i, step i s s').

Definition initial (table : list Player.t) : System :=
  BuildSystem (BuildWorld table [] false []) [].

Definition reachable (s : System) : Prop := ∃ table, steps (initial table) s.

(** What was sent on one channel, oldest first. *)
Definition sends_to (websocket : WebSocket) (tr : list Event)
  : list (Dict * Outcome unit) :=
  omap (λ e, match e with
             | Send c message r =>
                 if decide (c = websocket) then Some (message, r) else None
             | _ => None
             end) tr.

(** The [Send] events of a trace. *)
Definition only_sends (tr : list Event) : list Event :=
  omap (λ e, match e with Send _ _ _ => Some e | _ => None end) tr.

Definition is_init (message : Dict) : Prop :=
  message !! "type" = Some (VStr "init").

Definition is_event (message : Dict) : Prop :=
  message !! "type" = Some (VStr "player_created")
  ∨ message !! "type" = Some (VStr "stats_updated")
  ∨ message !! "type" = Some (VStr "player_deleted").

Definition is_send (e : Event) : Prop :=
  match e with Send _ _ _ => True | _ => False end.


(** The statistics that the table can hold: counts of 64 bits and an
    average that is a number. *)
Definition storable (stats : StatsBase.t) : bool :=
  int64 (StatsBase.matches stats) && int64 (StatsBase.runs_or_goals stats)
  && negb (is_nan (StatsBase.average stats)).

(** The statistics as the table gives them back. *)
Definition stored (stats : StatsBase.t) : StatsBase.t :=
  StatsBase.Build (StatsBase.matches stats) (StatsBase.runs_or_goals stats)
    (real_of (StatsBase.average stats)).

(** The row after [update_stats]: the three assigned columns. *)
Definition with_stats (stats : StatsBase.t) (p : Player.t) : Player.t :=
  Player.Build (Player.id p) (Player.name p) (Player.sport p)
    (Player.team p) (Player.age p)
    (VInt (StatsBase.matches stats))
    (VInt (StatsBase.runs_or_goals stats))
    (VFloat (StatsBase.average stats)).

(** ** Sample environments *)

(** The samples hold no text where a number is expected and no number
    where a text is: the three conversions are never called on them. *)

(** A transport on which every send to [dead] raises, nothing else fails,
    and clients stay silent. *)
Definition env_dead (dead : WebSocket) : Env :=
  BuildEnv (λ _ _, Returned tt)
           (λ _ c _, if decide (c = dead) then Raised RuntimeError
                     else Returned tt)
           (λ _, ([], None))
           (λ _, "00000000-0000-4000-8000-000000000000")
           (λ _, None) (λ _, "") SText.

(** A transport on which a send to [slow] never completes. *)
Definition env_stalled (slow : WebSocket) : Env :=
  BuildEnv (λ _ _, Returned tt)
           (λ _ c _, if decide (c = slow) then Pending else Returned tt)
           (λ _, ([], None))
           (λ _, "00000000-0000-4000-8000-000000000000")
           (λ _, None) (λ _, "") SText.

(** ** A case view of the runs of a task *)

(** What one run of a task does to the state, case by case; see
    [resume_task_step]. *)
Inductive task_step : Task → World → Task → World → Prop :=
| ts_accept websocket w at' :
    at' = Connecting ∨ (∃ r, at' = EndpointEnded r) →
    task_step (Endpoint websocket Accepting) w (Endpoint websocket at') w
| ts_connect websocket w r at' :
    lock w = false →
    at' = match r with Returned _ => Receiving | _ => EndpointEnded r end →
    task_step (Endpoint websocket Connecting) w (Endpoint websocket at')
      (BuildWorld (players w) (active_connections w ++ [websocket]) false
         (trace w ++ [Send websocket (init_message (players w)) r]))
| ts_receive websocket w at' :
    at' = Disconnecting ∨ (∃ r, at' = EndpointEnded r) →
    task_step (Endpoint websocket Receiving) w (Endpoint websocket at') w
| ts_disconnect websocket w :
    lock w = false →
    task_step (Endpoint websocket Disconnecting) w
      (Endpoint websocket (EndpointEnded (Returned tt)))
      (BuildWorld (players w) (discard websocket (active_connections w))
         false (trace w))
| ts_lock message w :
    lock w = false →
    task_step (Handler (Locking message)) w
      (Handler (Sending message (active_connections w) 0 []))
      (BuildWorld (players w) (active_connections w) true (trace w))
| ts_send message snapshot k to_remove conn r w at' :
    snapshot !! k = Some conn →
    at' = match r with
          | Returned _ => Sending message snapshot (S k) to_remove
          | Raised _ => Sending message snapshot (S k) (to_remove ++ [conn])
          | Pending => HandlerEnded Pending
          end →
    task_step (Handler (Sending message snapshot k to_remove)) w (Handler at')
      (BuildWorld (players w) (active_connections w) (lock w)
         (trace w ++ [Send conn message r]))
| ts_finish message snapshot k to_remove w :
    snapshot !! k = None →
    task_step (Handler (Sending message snapshot k to_remove)) w
      (Handler (HandlerEnded (Returned tt)))
      (BuildWorld (players w)
         (discard_all to_remove (active_connections w)) false (trace w)).

(** A run that touches neither the registry nor the lock and sends
    nothing. *)
Definition quiet (w w' : World) : Prop :=
  active_connections w' = active_connections w
  ∧ lock w' = lock w
  ∧ ∃ evs, trace w' = trace w ++ evs ∧ Forall (λ e, ¬ is_send e) evs.

(** ** Invariant of the event loop *)

(** A channel on which something was sent got the init message first and
    events after it. *)
Definition initialised (websocket : WebSocket) (tr : list Event) : Prop :=
  ∃ all_players r rest,
    sends_to websocket tr = (init_message all_players, r) :: rest
    ∧ Forall (λ x, is_event x.1) rest.

(** The pass of a task that has done [k] listeners of its copy: the last
    [k] sends of the trace are its own, to those listeners in order, all
    completed, and [to_remove] holds the ones whose send raised. *)
Definition pass_so_far (tr : list Event) (message : Dict)
    (snapshot : list WebSocket) (k : nat) (to_remove : list WebSocket)
  : Prop :=
  ∃ before outs,
    only_sends tr = before ++ sends message (take k snapshot) outs
    ∧ length outs = k
    ∧ k ≤ length snapshot
    ∧ to_remove = failed (take k snapshot) outs
    ∧ stalled outs = false.

(** What the place where a task is suspended says about the state. *)
Definition task_ok (w : World) (t : Task) : Prop :=
  match t with
  | Endpoint ws Accepting | Endpoint ws Connecting =>
      sends_to ws (trace w) = []
  | Endpoint ws Receiving | Endpoint ws Disconnecting =>
      ∃ all_players rest,
        sends_to ws (trace w) = (init_message all_players, Returned tt) :: rest
  | Endpoint ws (EndpointEnded _) => True
  | Handler (Locking message) => is_event message
  | Handler (Sending message snapshot k to_remove) =>
      lock w = true ∧ snapshot = active_connections w ∧ is_event message
      ∧ pass_so_far (trace w) message snapshot k to_remove
  | Handler (HandlerEnded _) => True
  end.

Definition is_sending (t : Task) : Prop :=
  match t with Handler (Sending _ _ _ _) => True | _ => False end.

Record Inv (s : System) : Prop := BuildInv
  { inv_nodup : NoDup (active_connections (world s));
    inv_channel : ∀ ws,
      sends_to ws (trace (world s)) = [] ∨ initialised ws (trace (world s));
    inv_registered : ∀ ws,
      ws ∈ active_connections (world s) →
      sends_to ws (trace (world s)) ≠ [];
    inv_task : ∀ i t, tasks s !! i = Some t → task_ok (world s) t;
    inv_unknown : ∀ ws,
      (∀ i at_, tasks s !! i ≠ Some (Endpoint ws at_)) →
      sends_to ws (trace (world s)) = [];
    inv_unique : ∀ i j ws at1 at2,
      tasks s !! i = Some (Endpoint ws at1) →
      tasks s !! j = Some (Endpoint ws at2) → i = j;
    inv_one_pass : ∀ i j t1 t2,
      tasks s !! i = Some t1 → tasks s !! j = Some t2 →
      is_sending t1 → is_sending t2 → i = j }.

(** ** Running the event loop on a schedule *)

Inductive Action : Type :=
| Open (websocket : WebSocket)            (* a client connects *)
| Arrive (env : Env) (req : Request)      (* a mutation request arrives *)
| Run (env : Env) (i : nat).              (* task [i] is resumed *)

Definition serves (websocket : WebSocket) (t : Task) : bool :=
  match t with
  | Endpoint ws _ => bool_decide (ws = websocket)
  | Handler _ => false
  end.

Definition fire (a : Action) (s : System) : option System :=
  match a with
  | Open websocket =>
      if existsb (serves websocket) (tasks s) then None
      else Some (BuildSystem (world s)
                   (tasks s ++ [Endpoint websocket Accepting]))
  | Arrive env req =>
      match start_handler env req (world s) with
      | (Returned at_, w') => Some (BuildSystem w' (tasks s ++ [Handler at_]))
      | _ => None
      end
  | Run env i =>
      match tasks s !! i with
      | Some t =>
          match resume env t (world s) with
          | (Returned t', w') => Some (BuildSystem w' (<[i:=t']> (tasks s)))
          | _ => None
          end
      | None => None
      end
  end.

Fixpoint schedule (acts : list Action) (s : System) : option System :=
  match acts with
  | [] => Some s
  | a :: acts' =>
      match fire a s with
      | Some s' => schedule acts' s'
      | None => None
      end
  end.

(** Sample worlds: nothing yet, and two listeners registered. *)
Definition sample_empty : World := BuildWorld [] [] false [].
Definition sample_two : World := BuildWorld [] [1; 2] false [].

(** A transport without failures: clients stay silent. *)
Definition env_ok : Env :=
  BuildEnv (λ _ _, Returned tt) (λ _ _ _, Returned tt)
           (λ _, ([], None))
           (λ _, "00000000-0000-4000-8000-000000000000")
           (λ _, None) (λ _, "") SText.

(** Sample states: two listeners attached; then a [delete_player] request
    on a missing id and one [create_player] whose broadcast finds channel 1
    dead, up to the end of its delivery loop; then the end of that pass. *)
Definition sample_body : Dict :=
  {[ "name" := VStr "Virat Kohli"; "sport" := VStr "cricket";
     "stats" := VDict {[ "matches" := VInt 260;
                         "runs_or_goals" := VInt 12040;
                         "average" := VFloat 59.3%float ]} ]}.

Definition attach_two : list Action :=
  [Open 1; Run env_ok 0; Run env_ok 0; Open 2; Run env_ok 1; Run env_ok 1].

Definition pass_with_failure : list Action :=
  [Arrive env_ok (DeletePlayer "nobody");
   Arrive env_ok (CreatePlayer sample_body);
   Run (env_dead 1) 3; Run (env_dead 1) 3; Run (env_dead 1) 3].

Definition sample_attached : System :=
  default (initial []) (schedule attach_two (initial [])).

Definition sample_loop_done : System :=
  default (initial []) (schedule pass_with_failure sample_attached).

Definition sample_pruned : System :=
  default (initial []) (schedule [Run (env_dead 1) 3] sample_loop_done).



Definition sample_player : Player.t :=
  Player.Build "00000000-0000-4000-8000-000000000000"
    (VStr "Virat Kohli") (VStr "cricket") (VStr "") (VInt 0)
    (VInt 260) (VInt 12040) (VFloat 59.3%float).

(** The last [n] sends of a trace, and how a list of sends ended. *)
Definition last_sends (n : nat) (tr : list Event) : list Event :=
  drop (length (only_sends tr) - n) (only_sends tr).

Definition results (evs : list Event) : list (Outcome unit) :=
  omap (λ e, match e with Send _ _ r => Some r | _ => None end) evs.

Definition sample_stats : StatsBase.t := StatsBase.Build 261 12100 59.5%float.

(** The lock is held and no task is inside a delivery loop: the task that
    took the lock is suspended for ever in a send. *)
Definition wedged (s : System) : Prop :=
  lock (world s) = true ∧ ∀ i t, tasks s !! i = Some t → ¬ is_sending t.

(** Channel 1 is dead when its endpoint sends the init message; later a
    player is created. *)
Definition attach_dead : list Action :=
  [Open 1; Run (env_dead 1) 0; Run (env_dead 1) 0].

Definition sample_half_attached : System :=
  default (initial []) (schedule attach_dead (initial [])).

Definition sample_half_attached_later : System :=
  default (initial [])
    (schedule [Arrive (env_dead 1) (CreatePlayer sample_body);
               Run (env_dead 1) 1; Run (env_dead 1) 1]
       sample_half_attached).

(** With two listeners attached, a player is created and the send to
    listener 1 never completes. *)
Definition sample_wedged : System :=
  default (initial [])
    (schedule [Arrive env_ok (CreatePlayer sample_body);
               Run (env_stalled 1) 2; Run (env_stalled 1) 2]
       sample_attached).

(** The handler of a request, as one call. *)
Definition handle (env : Env) (req : Request) : M Dict :=
  match req with
  | CreatePlayer data => create_player env data
  | UpdateStats player_id stats => update_stats env player_id stats
  | DeletePlayer player_id => delete_player env player_id
  end.

(** ** The read routes and the startup hook *)

(** [Player.sport == sport] in a [where]: the column holds that string. *)
Definition sport_is (sport : string) (p : Player.t) : bool :=
  match Player.sport p with
  | VStr s => bool_decide (s = sport)
  | _ => false
  end.

(** [session.exec(select(Player).where(Player.sport == sport)).all()] *)
Definition select_where_sport (sport : string) : M (list Player.t) := λ w,
  (Returned (List.filter (sport_is sport) (players w)), w).

(** [if sport:] holds for a string that is not empty. *)
Definition list_players (sport : option string) : M (list Dict) :=
  result <- match sport with
            | Some (String a s) => select_where_sport (String a s)
            | _ => select_all
            end ;;
  ret (player_to_dict <$> result).

(** The rows that [startup] seeds; the ids are the two that the default
    factory draws. *)
Definition seed_cricket (new_id : string) : Player.t :=
  Player.Build new_id (VStr "Virat Kohli") (VStr "cricket") (VStr "India")
    (VInt 36) (VInt 260) (VInt 12040) (VFloat 59.3%float).

Definition seed_football (new_id : string) : Player.t :=
  Player.Build new_id (VStr "Lionel Messi") (VStr "football")
    (VStr "Inter Miami") (VInt 37) (VInt 1000) (VInt 820)
    (VFloat 0.82%float).

(** [session.add_all(players); session.commit()] on the two seeds: the
    insert of the second row fails on a primary key that is taken. *)
Definition startup (id_a id_b : string) : M unit :=
  existing <- select_all ;;
  match existing with
  | [] =>
      if bool_decide (id_a = id_b) then raise IntegrityError
      else commit [seed_cricket id_a; seed_football id_b]
  | _ :: _ => ret tt
  end.

(** ** Histories of the event loop *)

(** The table after the commits of a history that starts on [table]. *)
Definition table_after (table : list Player.t) (tr : list Event)
  : list Player.t :=
  foldl (λ t e, match e with Commit t' => t' | _ => t end) table tr.

(** The event [message] tells the change from the table [before] to the
    table [after]: what each handler commits before it calls
    [manager.broadcast]. *)
Definition announces (message : Dict) (before after : list Player.t) : Prop :=
  (∃ p, message = player_created p
        ∧ find (has_id (Player.id p)) before = None
        ∧ after = before ++ [p])
  ∨ (∃ player_id stats p,
        message = stats_updated (with_stats stats p)
        ∧ find (has_id player_id) before = Some p
        ∧ after = (λ q, if has_id player_id q then with_stats stats p else q)
                    <$> before)
  ∨ (∃ player_id p,
        message = player_deleted player_id
        ∧ find (has_id player_id) before = Some p
        ∧ after = filter (λ q, has_id player_id q = false) before).

(** The histories the server writes on a table that starts as [table]:
    a commit with the broadcast of its event right after it; an init message
    with the table as committed so far; an event that was broadcast
    earlier. *)
Inductive history (table : list Player.t) : list Event → Prop :=
| history_nil : history table []
| history_mutation tr t message :
    history table tr →
    announces message (table_after table tr) t →
    history table (tr ++ [Commit t; Broadcast message])
| history_init tr websocket r :
    history table tr →
    history table
      (tr ++ [Send websocket (init_message (table_after table tr)) r])
| history_event tr websocket message r :
    history table tr →
    is_event message → Broadcast message ∈ tr →
    history table (tr ++ [Send websocket message r]).

(** The handlers that are in [broadcast] carry an event that is in the
    history. *)
Definition task_announced (tr : list Event) (t : Task) : Prop :=
  match t with
  | Handler (Locking message) | Handler (Sending message _ _ _) =>
      is_event message ∧ Broadcast message ∈ tr
  | _ => True
  end.

Record Hist (table : list Player.t) (s : System) : Prop := BuildHist
  { hist_history : history table (trace (world s));
    hist_table : players (world s) = table_after table (trace (world s));
    hist_task : ∀ i t, tasks s !! i = Some t →
                       task_announced (trace (world s)) t }.

(** A client that closes the connection without sending anything. *)
Definition env_leaving : Env :=
  BuildEnv (λ _ _, Returned tt) (λ _ _ _, Returned tt)
           (λ _, ([], Some WebSocketDisconnect))
           (λ _, "00000000-0000-4000-8000-000000000000")
           (λ _, None) (λ _, "") SText.

(** A client whose connection breaks with another error. *)
Definition env_broken : Env :=
  BuildEnv (λ _ _, Returned tt) (λ _ _ _, Returned tt)
           (λ _, ([], Some RuntimeError))
           (λ _, "00000000-0000-4000-8000-000000000000")
           (λ _, None) (λ _, "") SText.

(** A handshake that fails. *)
Definition env_refused : Env :=
  BuildEnv (λ _ _, Raised RuntimeError) (λ _ _ _, Returned tt)
           (λ _, ([], None))
           (λ _, "00000000-0000-4000-8000-000000000000")
           (λ _, None) (λ _, "") SText.

(** A player is created while nobody listens; then a client attaches. *)
Definition create_then_attach : list Action :=
  [Arrive env_ok (CreatePlayer sample_body); Run env_ok 0; Run env_ok 0;
   Open 1; Run env_ok 1; Run env_ok 1].

Definition sample_created_then_attached : System :=
  default (initial []) (schedule create_then_attach (initial [])).

(** A body whose "stats" is a number. *)
Definition sample_bad_body : Dict :=
  {[ "name" := VStr "Virat Kohli"; "sport" := VStr "cricket";
     "stats" := VInt 260 ]}.


(** Statistics that the table cannot hold: a count of 2^63, an average that
    is not a number; and an average of minus zero. *)
Definition sample_overflow : StatsBase.t :=
  StatsBase.Build (2 ^ 63) 12100 59.5%float.

Definition sample_nan : StatsBase.t := StatsBase.Build 261 12100 nan.

Definition sample_minus_zero : StatsBase.t :=
  StatsBase.Build 261 12100 (-0)%float.


(** Three listeners attached. *)
Definition attach_three : list Action :=
  attach_two ++ [Open 3; Run env_ok 2; Run env_ok 2].

Definition sample_three : System :=
  default (initial []) (schedule attach_three (initial [])).

(* ------------------------------------------------------------------ *)

(** * Properties *)

(** ** Basic facts *)

Lemma remove_first_Some x l : x ∈ l → is_Some (remove_first x l).
Proof.
  induction l as [|y l IH]; intros Hin.
  - by apply elem_of_nil in Hin.
  - simpl. destruct (decide (x = y)) as [->|Hne]; [by eexists|].
    apply elem_of_cons in Hin as [?|Hin]; [done|].
    destruct (IH Hin) as [l' ->]. by eexists.
Qed.

Lemma remove_first_None x l : x ∉ l → remove_first x l = None.
Proof.
  induction l as [|y l IH]; intros Hnin; [done|].
  simpl. apply not_elem_of_cons in Hnin as [Hne Hnin].
  rewrite decide_False by done. by rewrite IH.
Qed.

Lemma discard_not_in x l : x ∉ l → discard x l = l.
Proof. intros H. unfold discard. by rewrite remove_first_None. Qed.

Lemma discard_cons_eq x l : discard x (x :: l) = l.
Proof. unfold discard. simpl. by rewrite decide_True. Qed.

Lemma discard_cons_ne x y l : x ≠ y → discard x (y :: l) = y :: discard x l.
Proof.
  intros Hne. unfold discard. simpl. rewrite decide_False by done.
  by destruct (remove_first x l).
Qed.

Lemma filter_Forall_id {A} (P : A → Prop) `{∀ x, Decision (P x)} (l : list A) :
  Forall P l → filter P l = l.
Proof.
  induction 1 as [|y l Hy _ IH]; [done|].
  by rewrite filter_cons_True, IH.
Qed.

Lemma discard_NoDup_filter x l :
  NoDup l → discard x l = filter (λ y, y ≠ x) l.
Proof.
  induction 1 as [|y l Hnin Hnd IH]; [done|].
  destruct (decide (x = y)) as [->|Hne].
  - rewrite discard_cons_eq, filter_cons_False by naive_solver.
    symmetry. apply filter_Forall_id, Forall_forall. congruence.
  - rewrite discard_cons_ne, filter_cons_True by done. by rewrite IH.
Qed.

Lemma discard_all_NoDup_filter xs l :
  NoDup l → discard_all xs l = filter (λ y, y ∉ xs) l.
Proof.
  revert l. induction xs as [|x xs IH]; intros l Hnd; simpl.
  - symmetry. apply filter_Forall_id, Forall_forall.
    intros ? _. apply not_elem_of_nil.
  - unfold discard_all in *. simpl. rewrite IH.
    + rewrite discard_NoDup_filter by done. rewrite list_filter_filter.
      apply list_filter_iff. intros y. rewrite not_elem_of_cons. tauto.
    + rewrite discard_NoDup_filter by done. by apply NoDup_filter.
Qed.

Lemma async_with_lock_run {A} (body : M A) w :
  async_with_lock body w
  = if lock w then (Pending, w)
    else match body (set_lock true w) with
         | (Pending, w') => (Pending, w')
         | (r, w') => (r, set_lock false w')
         end.
Proof. unfold async_with_lock, bind, acquire. by destruct (lock w). Qed.

Lemma remove_if_present_run x w :
  remove_if_present x w
  = (Returned tt, set_active (discard x (active_connections w)) w).
Proof.
  unfold remove_if_present, bind, get_active, active_remove, discard.
  case_bool_decide as Hin.
  - destruct (remove_first_Some _ _ Hin) as [l' ->]. reflexivity.
  - rewrite remove_first_None by done. by destruct w.
Qed.

Lemma remove_failed_run xs w :
  remove_failed xs w
  = (Returned tt, set_active (discard_all xs (active_connections w)) w).
Proof.
  revert w. induction xs as [|x xs IH]; intros w; simpl.
  - by destruct w.
  - unfold bind. rewrite remove_if_present_run, IH. reflexivity.
Qed.

(** ** How a broadcast pass runs *)

Lemma outcomes_length env message conns tr :
  length (outcomes env message conns tr) ≤ length conns.
Proof.
  revert tr. induction conns as [|c rest IH]; intros tr; simpl; [lia|].
  destruct (is_pending _); simpl; [lia|].
  specialize (IH (tr ++ [Send c message (send_result env tr c message)])). lia.
Qed.

Lemma outcomes_complete env message conns tr :
  stalled (outcomes env message conns tr) = false →
  length (outcomes env message conns tr) = length conns.
Proof.
  revert tr. induction conns as [|c rest IH]; intros tr; simpl; [done|].
  destruct (is_pending _) eqn:Hp; simpl; [done|].
  intros H. f_equal. by apply IH.
Qed.

(** A stalled pass ends with the send that never completes; all sends
    before it completed. *)
Lemma outcomes_stalled env message conns tr :
  stalled (outcomes env message conns tr) = true →
  ∃ outs0, outcomes env message conns tr = outs0 ++ [Pending]
           ∧ stalled outs0 = false.
Proof.
  revert tr. induction conns as [|c rest IH]; intros tr; simpl; [done|].
  destruct (send_result env tr c message) as [[]|e|] eqn:Ho; simpl.
  - intros H. destruct (IH _ H) as (outs0 & -> & H0).
    exists (Returned tt :: outs0). by split.
  - intros H. destruct (IH _ H) as (outs0 & -> & H0).
    exists (Raised e :: outs0). by split.
  - intros _. by exists [].
Qed.

Lemma send_or_collect_run env message conn rm w :
  send_or_collect env message conn rm w
  = (match send_result env (trace w) conn message with
     | Returned _ => Returned rm
     | Raised _ => Returned (rm ++ [conn])
     | Pending => Pending
     end,
     (emit (Send conn message (send_result env (trace w) conn message)) w).2).
Proof.
  unfold send_or_collect, try_except, bind, send_json, ret.
  by destruct (send_result env (trace w) conn message).
Qed.

Lemma deliver_run env message conns rm w :
  deliver env message conns rm w
  = (if stalled (outcomes env message conns (trace w)) then Pending
     else Returned (rm ++ failed conns (outcomes env message conns (trace w))),
     BuildWorld (players w) (active_connections w) (lock w)
       (trace w ++ sends message conns (outcomes env message conns (trace w)))).
Proof.
  revert rm w. induction conns as [|c rest IH]; intros rm w; simpl.
  - unfold ret. rewrite !app_nil_r. by destruct w.
  - unfold bind. rewrite send_or_collect_run.
    destruct (send_result env (trace w) c message) as [[]|e|] eqn:Ho; simpl.
    + rewrite IH. simpl. by rewrite <- app_assoc.
    + rewrite IH. simpl. rewrite <- !app_assoc. reflexivity.
    + unfold sends. by destruct rest.
Qed.

Lemma broadcast_run env message w :
  let tr := trace w ++ [Broadcast message] in
  let outs := outcomes env message (active_connections w) tr in
  broadcast env message w
  = if lock w then (Pending, BuildWorld (players w) (active_connections w) true tr)
    else if stalled outs then
      (Pending, BuildWorld (players w) (active_connections w) true
                  (tr ++ sends message (active_connections w) outs))
    else
      (Returned tt,
       BuildWorld (players w)
         (discard_all (failed (active_connections w) outs) (active_connections w))
         false (tr ++ sends message (active_connections w) outs)).
Proof.
  intros tr outs. unfold broadcast, bind at 1, emit.
  rewrite async_with_lock_run. simpl.
  destruct (lock w) eqn:Hl; [done|].
  unfold bind, get_active. simpl. rewrite deliver_run. simpl. fold tr. fold outs.
  destruct (stalled outs); [done|].
  rewrite remove_failed_run. reflexivity.
Qed.

Lemma outcomes_not_stalled env message conns tr :
  (∀ tr' c, send_result env tr' c message ≠ Pending) →
  stalled (outcomes env message conns tr) = false.
Proof.
  intros Hnp. revert tr. induction conns as [|c rest IH]; intros tr; [done|].
  simpl. specialize (Hnp tr c).
  destruct (send_result env tr c message); simpl; [apply IH..|done].
Qed.

Lemma sends_are_sends message conns outs :
  Forall is_send (sends message conns outs).
Proof.
  unfold sends. revert outs.
  induction conns as [|c conns IH]; intros [|o outs]; simpl; constructor; auto.
  exact I.
Qed.

(** Whatever happens, a call of [broadcast] adds to the trace its own entry
    and then sends only, and leaves the table alone. *)
Lemma broadcast_effects env message w :
  ∃ rest, trace (broadcast env message w).2
          = trace w ++ Broadcast message :: rest
          ∧ Forall is_send rest
          ∧ players (broadcast env message w).2 = players w.
Proof.
  pose proof (broadcast_run env message w) as Hrun. simpl in Hrun.
  rewrite Hrun.
  destruct (lock w); [|destruct (stalled _)]; simpl.
  - by exists [].
  - eexists. rewrite <- app_assoc. simpl. eauto using sends_are_sends.
  - eexists. rewrite <- app_assoc. simpl. eauto using sends_are_sends.
Qed.

(** ** The claims on single calls *)

(** C2.  For every message and every state of the registry and of the
    channels, [broadcast] never raises to its caller; with the lock free and
    every send completing (by returning or by raising), it returns. *)
Theorem broadcast_never_raises env message w :
  (∀ e, (broadcast env message w).1 ≠ Raised e)
  ∧ (lock w = false →
     (∀ tr c, send_result env tr c message ≠ Pending) →
     (broadcast env message w).1 = Returned tt).
Proof.
  pose proof (broadcast_run env message w) as Hrun. simpl in Hrun.
  rewrite Hrun. split.
  - intros e. by destruct (lock w); [|destruct (stalled _)].
  - intros -> Hnp. by rewrite outcomes_not_stalled.
Qed.

(** ** How the handlers run up to the broadcast *)

Lemma find_has_id player_id rows p :
  find (has_id player_id) rows = Some p → Player.id p = player_id.
Proof.
  intros H. apply find_some in H as [_ H].
  unfold has_id in H. by apply bool_decide_eq_true in H.
Qed.

Lemma update_stats_commit_missing env player_id stats w :
  find (has_id player_id) (players w) = None →
  update_stats_commit env player_id stats w
  = (Raised (HTTPException 404 "Player not found"), w).
Proof.
  intros H. unfold update_stats_commit, bind, session_get. by rewrite H.
Qed.

Lemma storable_spec stats :
  storable stats = true
  ↔ int64 (StatsBase.matches stats) = true
    ∧ int64 (StatsBase.runs_or_goals stats) = true
    ∧ is_nan (StatsBase.average stats) = false.
Proof.
  unfold storable. rewrite !andb_true_iff, negb_true_iff. tauto.
Qed.

Lemma update_stats_commit_found env player_id stats w p :
  storable stats = true →
  find (has_id player_id) (players w) = Some p →
  let table := (λ q, if has_id player_id q then with_stats (stored stats) p
                     else q) <$> players w in
  update_stats_commit env player_id stats w
  = (Returned (with_stats (stored stats) p),
     BuildWorld table (active_connections w) (lock w)
       (trace w ++ [Commit table])).
Proof.
  intros (Hm & Hr & Ha)%storable_spec H table.
  unfold update_stats_commit, bind, session_get. rewrite H.
  pose proof (find_has_id _ _ _ H) as Hid. subst player_id table.
  unfold update_commit, bind, lift, to_float, adapt. cbn [Player.matches
    Player.runs_or_goals Player.average]. rewrite Hm, Hr, Ha.
  reflexivity.
Qed.

(** Statistics that the table cannot hold: the commit raises and nothing is
    written. *)
Lemma update_stats_commit_unstorable env player_id stats w p :
  storable stats = false →
  find (has_id player_id) (players w) = Some p →
  ∃ e, (e = OverflowError ∨ e = IntegrityError)
       ∧ update_stats_commit env player_id stats w = (Raised e, w).
Proof.
  intros Hs H. unfold update_stats_commit, bind, session_get. rewrite H.
  unfold update_commit, bind, lift, to_float, adapt. cbn [Player.matches
    Player.runs_or_goals Player.average].
  destruct (int64 (StatsBase.matches stats)) eqn:Hm; [|eauto].
  destruct (int64 (StatsBase.runs_or_goals stats)) eqn:Hr; [|eauto].
  destruct (is_nan (StatsBase.average stats)) eqn:Ha.
  - exists IntegrityError. split; [by right|reflexivity].
  - unfold storable in Hs. by rewrite Hm, Hr, Ha in Hs.
Qed.

Lemma delete_player_commit_missing player_id w :
  find (has_id player_id) (players w) = None →
  delete_player_commit player_id w
  = (Raised (HTTPException 404 "Player not found"), w).
Proof.
  intros H. unfold delete_player_commit, bind, session_get. by rewrite H.
Qed.

Lemma delete_player_commit_found player_id w p :
  find (has_id player_id) (players w) = Some p →
  let table := filter (λ q, has_id player_id q = false) (players w) in
  delete_player_commit player_id w
  = (Returned tt,
     BuildWorld table (active_connections w) (lock w)
       (trace w ++ [Commit table])).
Proof.
  intros H table. unfold delete_player_commit, bind, session_get. rewrite H.
  pose proof (find_has_id _ _ _ H) as Hid. subst player_id table.
  reflexivity.
Qed.

Lemma update_stats_found env player_id stats w p :
  storable stats = true →
  find (has_id player_id) (players w) = Some p →
  let w' := (update_stats env player_id stats w).2 in
  players w'
  = ((λ q, if has_id player_id q then with_stats (stored stats) p else q)
       <$> players w)
  ∧ ∃ rest, trace w'
            = trace w ++ Commit (players w')
                :: Broadcast (stats_updated (with_stats (stored stats) p))
                :: rest
            ∧ Forall is_send rest.
Proof.
  intros Hs Hp w'. subst w'. unfold update_stats, bind.
  rewrite (update_stats_commit_found _ _ _ _ _ Hs Hp).
  match goal with |- context [broadcast env ?m ?w0] =>
    destruct (broadcast_effects env m w0) as (rest & Htr & Hrest & Hpl);
    destruct (broadcast env m w0) as [[[]|e|] w1] end;
    simpl in *; rewrite Hpl, Htr, <- app_assoc; eauto.
Qed.

Lemma update_stats_unstorable env player_id stats w p :
  storable stats = false →
  find (has_id player_id) (players w) = Some p →
  ∃ e, (e = OverflowError ∨ e = IntegrityError)
       ∧ update_stats env player_id stats w = (Raised e, w).
Proof.
  intros Hs Hp.
  destruct (update_stats_commit_unstorable env _ _ _ _ Hs Hp)
    as (e & He & Hrun).
  exists e. split; [done|]. unfold update_stats, bind. by rewrite Hrun.
Qed.

Lemma delete_player_found env player_id w p :
  find (has_id player_id) (players w) = Some p →
  let w' := (delete_player env player_id w).2 in
  players w' = filter (λ q, has_id player_id q = false) (players w)
  ∧ ∃ rest, trace w'
            = trace w ++ Commit (players w')
                :: Broadcast (player_deleted player_id) :: rest
            ∧ Forall is_send rest.
Proof.
  intros Hp w'. subst w'. unfold delete_player, bind.
  rewrite (delete_player_commit_found _ _ _ Hp).
  match goal with |- context [broadcast env ?m ?w0] =>
    destruct (broadcast_effects env m w0) as (rest & Htr & Hrest & Hpl);
    destruct (broadcast env m w0) as [[[]|e|] w1] end;
    simpl in *; rewrite Hpl, Htr, <- app_assoc; eauto.
Qed.

(** C6 (amended).  [update_stats] and [delete_player] on an id that is not
    in the table raise 404 and leave the whole state as it was: the table
    is unchanged and [broadcast] is not called.  On an id that is in the
    table, [delete_player] commits first and then calls [broadcast] once,
    with the event of the committed change, and after it the trace holds
    sends only; so does [update_stats] when the statistics can be stored
    (both counts in 64 bits, an average that is not NaN), the event
    carrying the row as stored.  With statistics that cannot be stored,
    [update_stats] raises [OverflowError] or [IntegrityError] from the
    commit and leaves the whole state as it was: nothing is committed and
    [broadcast] is not called. *)
Theorem mutation_commits_then_broadcasts_once env player_id w :
  (find (has_id player_id) (players w) = None →
   (∀ stats, update_stats env player_id stats w
             = (Raised (HTTPException 404 "Player not found"), w))
   ∧ delete_player env player_id w
     = (Raised (HTTPException 404 "Player not found"), w))
  ∧ (∀ p, find (has_id player_id) (players w) = Some p →
     (∀ stats,
        storable stats = true →
        let w' := (update_stats env player_id stats w).2 in
        players w'
        = ((λ q, if has_id player_id q then with_stats (stored stats) p
                 else q) <$> players w)
        ∧ ∃ rest, trace w'
                  = trace w ++ Commit (players w')
                      :: Broadcast
                           (stats_updated (with_stats (stored stats) p))
                      :: rest
                  ∧ Forall is_send rest)
     ∧ (∀ stats,
          storable stats = false →
          ∃ e, (e = OverflowError ∨ e = IntegrityError)
               ∧ update_stats env player_id stats w = (Raised e, w))
     ∧ (let w' := (delete_player env player_id w).2 in
        players w' = filter (λ q, has_id player_id q = false) (players w)
        ∧ ∃ rest, trace w'
                  = trace w ++ Commit (players w')
                      :: Broadcast (player_deleted player_id) :: rest
                  ∧ Forall is_send rest)).
Proof.
  split.
  - intros Hnone. split.
    + intros stats. unfold update_stats, bind.
      by rewrite update_stats_commit_missing.
    + unfold delete_player, bind. by rewrite delete_player_commit_missing.
  - intros p Hp. split; [|split].
    + intros stats Hs. by apply update_stats_found.
    + intros stats Hs. by eapply update_stats_unstorable.
    + by apply (delete_player_found env player_id w p).
Qed.

Lemma find_has_id_fmap player_id (p' : Player.t) rows :
  Player.id p' = player_id →
  find (has_id player_id)
       ((λ q, if has_id player_id q then p' else q) <$> rows)
  = (λ q, if has_id player_id q then p' else q)
      <$> find (has_id player_id) rows.
Proof.
  intros Hid. induction rows as [|q rows IH]; [done|].
  simpl. destruct (has_id player_id q) eqn:Hq.
  - unfold has_id at 1. rewrite bool_decide_eq_true_2 by done.
    simpl. by rewrite Hq.
  - rewrite Hq. apply IH.
Qed.

(** C9 (amended).  For a player that exists and statistics that can be
    stored, [update_stats] sets [matches] and [runs_or_goals] of that
    player to the supplied values and [average] to the supplied value as
    the table gives it back (the value itself unless it is a zero, which
    comes back as [0.0]); it leaves [id], [name], [sport], [team] and [age]
    as they were; the table keeps its length and every row with another id
    stays in place, unchanged.  With statistics that cannot be stored the
    call raises and the whole state, the row included, is as before. *)
Theorem update_stats_changes_three_fields env player_id stats w p :
  find (has_id player_id) (players w) = Some p →
  let w' := (update_stats env player_id stats w).2 in
  (storable stats = true →
   (∃ p', find (has_id player_id) (players w') = Some p'
          ∧ Player.matches p' = VInt (StatsBase.matches stats)
          ∧ Player.runs_or_goals p' = VInt (StatsBase.runs_or_goals stats)
          ∧ Player.average p' = VFloat (real_of (StatsBase.average stats))
          ∧ ((StatsBase.average stats =? 0)%float = false →
             Player.average p' = VFloat (StatsBase.average stats))
          ∧ Player.id p' = Player.id p
          ∧ Player.name p' = Player.name p
          ∧ Player.sport p' = Player.sport p
          ∧ Player.team p' = Player.team p
          ∧ Player.age p' = Player.age p)
   ∧ length (players w') = length (players w)
   ∧ (∀ i q, players w !! i = Some q → Player.id q ≠ player_id →
             players w' !! i = Some q))
  ∧ (storable stats = false →
     w' = w ∧ ∃ e, (update_stats env player_id stats w).1 = Raised e).
Proof.
  intros Hp w'. split.
  - intros Hs.
    destruct (update_stats_found env player_id stats w p Hs Hp) as [Htable _].
    fold w' in Htable. rewrite Htable. split; [|split].
    + exists (with_stats (stored stats) p).
      rewrite find_has_id_fmap, Hp by (simpl; eauto using find_has_id).
      simpl. rewrite (proj2 (find_some _ _ Hp)).
      repeat split; try done.
      intros Hz. unfold real_of. by rewrite Hz.
    + by rewrite length_fmap.
    + intros i q Hq Hne. rewrite list_lookup_fmap, Hq. simpl.
      unfold has_id. by rewrite bool_decide_eq_false_2.
  - intros Hs. subst w'.
    destruct (update_stats_unstorable env player_id stats w p Hs Hp)
      as (e & _ & ->).
    split; [done|]. by exists e.
Qed.




Lemma adapt_not_pending v : adapt v ≠ Pending.
Proof. destruct v; simpl; try done. by destruct (int64 z). Qed.

Lemma to_float_not_pending env v : to_float env v ≠ Pending.
Proof.
  destruct v; simpl; try done.
  - by destruct (float_of_int z).
  - by destruct (float_of_str env s).
Qed.

Lemma insert_commit_cases env p w :
  (∃ e, insert_commit env p w = (Raised e, w))
  ∨ ∃ q, Player.id q = Player.id p
         ∧ find (has_id (Player.id p)) (players w) = None
         ∧ insert_commit env p w
           = (Returned q,
              BuildWorld (players w ++ [q]) (active_connections w) (lock w)
                (trace w ++ [Commit (players w ++ [q])])).
Proof.
  unfold insert_commit, bind, lift, session_get.
  pose proof (to_float_not_pending env
                (or_default (VFloat 0) (Player.average p))) as Hf.
  destruct (to_float env _) as [average| |]; [|left; by eexists|done].
  repeat match goal with
         | |- context [adapt ?v] =>
             pose proof (adapt_not_pending v);
             destruct (adapt v) as [?| |]; [|left; by eexists|done]
         end.
  destruct (find (has_id (Player.id p)) (players w)) as [row|] eqn:Hrow.
  - left. exists IntegrityError.
    rewrite bool_decide_eq_true_2 by eauto. by rewrite orb_true_r.
  - rewrite bool_decide_eq_false_2 by (by intros [? ?]). rewrite orb_false_r.
    destruct (existsb is_null _); [left; by eexists|].
    right. eexists. split; [|split; [done|reflexivity]]. done.
Qed.


Lemma disconnect_run websocket w :
  disconnect websocket w
  = if lock w then (Pending, w)
    else (Returned tt,
          set_active (discard websocket (active_connections w)) w).
Proof.
  unfold disconnect. rewrite async_with_lock_run, remove_if_present_run.
  destruct w as [? ? [] ?]; reflexivity.
Qed.

Lemma discard_twice x l : NoDup l → discard x (discard x l) = discard x l.
Proof.
  intros Hnd. apply discard_not_in.
  rewrite discard_NoDup_filter by done.
  rewrite list_elem_of_filter. tauto.
Qed.

Lemma disconnect_twice websocket w :
  NoDup (active_connections w) →
  (disconnect websocket ;;; disconnect websocket) w = disconnect websocket w.
Proof.
  intros Hnd. unfold bind. rewrite !disconnect_run.
  destruct (lock w) eqn:Hl; [done|].
  rewrite disconnect_run. simpl. rewrite Hl.
  unfold set_active. simpl. by rewrite discard_twice.
Qed.

(** While the lock is held, the operations on the registry wait: a
    broadcast makes its entry in the trace and sends nothing, [disconnect]
    does nothing, [connect] gets no further than the handshake; none of
    them returns or touches the registry. *)
Lemma lock_held_waits w :
  lock w = true →
  (∀ env message,
     broadcast env message w
     = (Pending,
        BuildWorld (players w) (active_connections w) true
          (trace w ++ [Broadcast message])))
  ∧ (∀ websocket, disconnect websocket w = (Pending, w))
  ∧ (∀ env websocket,
       (connect env websocket w).2 = w
       ∧ (connect env websocket w).1
         = match accept_result env (trace w) websocket with
           | Returned _ => Pending
           | r => r
           end).
Proof.
  intros Hl. split; [|split].
  - intros env message.
    pose proof (broadcast_run env message w) as Hrun. simpl in Hrun.
    by rewrite Hrun, Hl.
  - intros websocket. by rewrite disconnect_run, Hl.
  - intros env websocket. unfold connect, bind, accept.
    destruct (accept_result env (trace w) websocket) as [[]| |]; [|done..].
    by rewrite async_with_lock_run, Hl.
Qed.

(** C8 (amended).  A pass sends to the listeners one after the other, in
    registry order, and waits for each send without a deadline.  A send that
    raises does not stop the pass: if every send completes, the whole
    registry is served, the lock is released and [broadcast] returns.  If a
    send never completes, it is the last one made: the listeners after it
    are sent nothing, the registry is as it was, the lock stays held and
    [broadcast] does not return; and then other broadcasts, attaches and
    detaches wait: another broadcast sends nothing and does not return,
    [disconnect] does nothing and does not return, and [connect] does not
    return and registers nothing. *)
Theorem broadcast_waits_for_each_send env message w :
  lock w = false →
  let outs := outcomes env message (active_connections w)
                (trace w ++ [Broadcast message]) in
  let w' := (broadcast env message w).2 in
  trace w' = trace w ++ Broadcast message
               :: sends message (active_connections w) outs
  ∧ ((stalled outs = false
      ∧ length outs = length (active_connections w)
      ∧ (broadcast env message w).1 = Returned tt
      ∧ lock w' = false)
     ∨ (∃ outs0, outs = outs0 ++ [Pending]
        ∧ stalled outs0 = false
        ∧ length outs0 < length (active_connections w)
        ∧ (broadcast env message w).1 = Pending
        ∧ active_connections w' = active_connections w
        ∧ lock w' = true
        ∧ (∀ env' message',
             (broadcast env' message' w').1 = Pending
             ∧ active_connections (broadcast env' message' w').2
               = active_connections w
             ∧ only_sends (trace (broadcast env' message' w').2)
               = only_sends (trace w'))
        ∧ (∀ websocket, disconnect websocket w' = (Pending, w'))
        ∧ (∀ env' websocket e,
             (connect env' websocket w').1 ≠ Returned e
             ∧ (connect env' websocket w').2 = w'))).
Proof.
  intros Hl outs w'. subst outs w'.
  pose proof (broadcast_run env message w) as Hrun. simpl in Hrun.
  rewrite Hl in Hrun.
  pose proof (outcomes_length env message (active_connections w)
                (trace w ++ [Broadcast message])) as Hlen.
  destruct (stalled _) eqn:Hst; rewrite Hrun; simpl.
  - split; [by rewrite <- app_assoc|]. right.
    destruct (outcomes_stalled _ _ _ _ Hst) as (outs0 & Houts & H0).
    match goal with |- context [disconnect _ ?w1] =>
      destruct (lock_held_waits w1 eq_refl) as (Hb & Hd & Hc) end.
    exists outs0.
    split; [done|]. split; [done|]. split.
    { rewrite Houts, length_app in Hlen. simpl in Hlen. lia. }
    split; [done|]. split; [done|]. split; [done|].
    split; [|split; [exact Hd|]].
    + intros env' message'. rewrite ?Hb. simpl. split; [done|].
      split; [done|]. unfold only_sends. rewrite omap_app. simpl.
      apply app_nil_r.
    + intros env' websocket e. destruct (Hc env' websocket) as [Hw Hr].
      split; [|exact Hw]. rewrite Hr. simpl.
      by destruct (accept_result env' _ websocket) as [[]| |].
  - split; [by rewrite <- app_assoc|]. left.
    repeat split; try done. by apply outcomes_complete.
Qed.

(** ** The runs of a task, case by case *)

Lemma resume_task_step env t w t' w' :
  resume env t w = (Returned t', w') → task_step t w t' w'.
Proof.
  destruct t as [websocket at_|at_]; simpl; unfold bind.
  - destruct at_ as [| | | |r]; simpl.
    + unfold bind, attempt, accept, ret. simpl.
      intros [= <- <-]. constructor.
      destruct (accept_result _ _ _); eauto.
    + unfold bind, acquire, attempt, ret. simpl.
      destruct (lock w) eqn:Hl; [done|]. simpl.
      intros [= <- <-].
      eapply (ts_connect _ _
                (send_result env (trace w) websocket
                   (init_message (players w)))); [done|].
      by destruct (send_result _ _ _ _).
    + unfold bind, attempt, ret. simpl.
      destruct (receive_loop env websocket w) as [r w1] eqn:Hloop. simpl.
      assert (w1 = w) as ->.
      { unfold receive_loop in Hloop.
        revert Hloop. generalize (inbound env websocket).2.
        induction ((inbound env websocket).1) as [|f fs IH];
          intros [e|]; simpl; unfold raise; try congruence; eauto. }
      intros [= <- <-]. constructor.
      destruct r as [[]|[]|]; eauto.
    + unfold bind, acquire, attempt, release, ret. simpl.
      destruct (lock w) eqn:Hl; [done|].
      rewrite remove_if_present_run. simpl.
      intros [= <- <-]. by apply ts_disconnect.
    + done.
  - destruct at_ as [message|message snapshot k to_remove|r]; simpl.
    + unfold bind, acquire, get_active, ret.
      destruct (lock w) eqn:Hl; [done|]. simpl.
      intros [= <- <-]. by apply ts_lock.
    + destruct (snapshot !! k) as [conn|] eqn:Hk.
      * unfold bind, attempt. rewrite send_or_collect_run. simpl.
        destruct (send_result env (trace w) conn message) as [[]|e|] eqn:Hr;
          unfold ret; intros [= <- <-];
          by eapply (ts_send _ _ _ _ _ _ _ _ Hk); rewrite ?Hr.
      * unfold bind, attempt. rewrite remove_failed_run. simpl.
        unfold ret. intros [= <- <-]. by apply ts_finish.
    + done.
Qed.

Lemma quiet_refl w : quiet w w.
Proof.
  repeat split. exists []. by rewrite app_nil_r.
Qed.

Lemma quiet_commit t w :
  quiet w (BuildWorld t (active_connections w) (lock w) (trace w ++ [Commit t])).
Proof.
  repeat split. exists [Commit t]. split; [done|].
  constructor; [|constructor]. simpl. tauto.
Qed.

Lemma is_event_player_created p : is_event (player_created p).
Proof. left. reflexivity. Qed.

Lemma is_event_stats_updated p : is_event (stats_updated p).
Proof. right. left. reflexivity. Qed.

Lemma is_event_player_deleted player_id : is_event (player_deleted player_id).
Proof. right. right. reflexivity. Qed.

Lemma is_init_init_message all_players : is_init (init_message all_players).
Proof. reflexivity. Qed.

Lemma is_event_not_init message : is_event message → ¬ is_init message.
Proof. unfold is_event, is_init. intros [H|[H|H]] Hi; congruence. Qed.

Lemma create_player_commit_cases env data w :
  (∃ e, create_player_commit env data w = (Raised e, w))
  ∨ ∃ p, find (has_id (Player.id p)) (players w) = None
         ∧ create_player_commit env data w
           = (Returned p,
              BuildWorld (players w ++ [p]) (active_connections w) (lock w)
                (trace w ++ [Commit (players w ++ [p])])).
Proof.
  unfold create_player_commit, bind, getitem, subscript, ret, raise.
  destruct (data !! "name"); [|left; by eexists].
  destruct (data !! "sport"); [|left; by eexists].
  destruct (data !! "stats") as [stats|]; [|left; by eexists].
  destruct stats; try (left; by eexists).
  unfold getitem, ret, raise.
  destruct (d !! "matches"); [|left; by eexists].
  destruct (d !! "runs_or_goals"); [|left; by eexists].
  destruct (d !! "average"); [|left; by eexists].
  match goal with |- context [insert_commit env ?row w] =>
    destruct (insert_commit_cases env row w)
      as [[e ->]|(q & Hid & Hfresh & ->)] end.
  - left. by eexists.
  - right. exists q. by rewrite Hid.
Qed.

Lemma create_player_commit_quiet env data w :
  quiet w (create_player_commit env data w).2.
Proof.
  destruct (create_player_commit_cases env data w)
    as [[e ->]|(p & _ & ->)]; [apply quiet_refl|apply quiet_commit].
Qed.

Lemma handler_commit_quiet env req w :
  quiet w (handler_commit env req w).2
  ∧ ∀ message, (handler_commit env req w).1 = Returned message →
               is_event message.
Proof.
  destruct req as [data|player_id stats|player_id]; simpl; unfold bind.
  - pose proof (create_player_commit_quiet env data w) as Hq.
    destruct (create_player_commit env data w) as [[p| |] w1]; simpl in *;
      (split; [done|]); intros m; unfold ret; simpl; intros [= <-].
    apply is_event_player_created.
  - destruct (find (has_id player_id) (players w)) as [p|] eqn:Hp.
    + destruct (storable stats) eqn:Hs.
      * rewrite (update_stats_commit_found _ _ _ _ _ Hs Hp). simpl.
        split; [apply quiet_commit|].
        intros m [= <-]. apply is_event_stats_updated.
      * destruct (update_stats_commit_unstorable env _ _ _ _ Hs Hp)
          as (e & _ & ->). simpl. split; [apply quiet_refl|done].
    + rewrite (update_stats_commit_missing _ _ _ _ Hp). simpl.
      split; [apply quiet_refl|done].
  - destruct (find (has_id player_id) (players w)) as [p|] eqn:Hp.
    + rewrite (delete_player_commit_found _ _ _ Hp). simpl.
      split; [apply quiet_commit|].
      intros m [= <-]. apply is_event_player_deleted.
    + rewrite (delete_player_commit_missing _ _ Hp). simpl.
      split; [apply quiet_refl|done].
Qed.

Lemma start_handler_quiet env req w at_ w' :
  start_handler env req w = (Returned at_, w') →
  quiet w w'
  ∧ ((∃ message, at_ = Locking message ∧ is_event message)
     ∨ ∃ r, at_ = HandlerEnded r).
Proof.
  unfold start_handler, bind, attempt. simpl.
  destruct (handler_commit_quiet env req w) as [Hq Hev].
  destruct (handler_commit env req w) as [[m|e|] w1]; simpl in *.
  - unfold emit, ret. intros [= <- <-]. split; [|eauto].
    destruct Hq as (Ha & Hl & evs & Htr & Hevs). repeat split; [done..|].
    exists (evs ++ [Broadcast m]). simpl. rewrite Htr, <- app_assoc.
    split; [done|]. apply Forall_app. split; [done|].
    constructor; [|constructor]. simpl. tauto.
  - unfold ret. intros [= <- <-]. eauto.
  - unfold ret. intros [= <- <-]. eauto.
Qed.

(** ** What was sent on a channel *)

Lemma sends_to_app ws tr1 tr2 :
  sends_to ws (tr1 ++ tr2) = sends_to ws tr1 ++ sends_to ws tr2.
Proof. apply omap_app. Qed.

Lemma sends_to_elem c message r tr :
  Send c message r ∈ tr → (message, r) ∈ sends_to c tr.
Proof.
  intros (l1 & l2 & ->)%list_elem_of_split. rewrite sends_to_app. simpl.
  rewrite decide_True by done. apply elem_of_app. right.
  by apply elem_of_cons; left.
Qed.

Lemma sends_to_snoc ws tr c message r :
  sends_to ws (tr ++ [Send c message r])
  = sends_to ws tr ++ (if decide (c = ws) then [(message, r)] else []).
Proof. rewrite sends_to_app. simpl. by destruct (decide (c = ws)). Qed.

Lemma sends_to_snoc_ne ws tr c message r :
  c ≠ ws → sends_to ws (tr ++ [Send c message r]) = sends_to ws tr.
Proof.
  intros Hne. rewrite sends_to_snoc, decide_False by done. apply app_nil_r.
Qed.

Lemma sends_to_no_send ws evs :
  Forall (λ e, ¬ is_send e) evs → sends_to ws evs = [].
Proof.
  induction 1 as [|e evs He _ IH]; [done|].
  destruct e; simpl in *; [done..|tauto].
Qed.

Lemma sends_to_quiet ws w w' :
  quiet w w' → sends_to ws (trace w') = sends_to ws (trace w).
Proof.
  intros (_ & _ & evs & -> & Hevs).
  by rewrite sends_to_app, (sends_to_no_send _ _ Hevs), app_nil_r.
Qed.

Lemma only_sends_app tr1 tr2 :
  only_sends (tr1 ++ tr2) = only_sends tr1 ++ only_sends tr2.
Proof. apply omap_app. Qed.

Lemma only_sends_no_send evs :
  Forall (λ e, ¬ is_send e) evs → only_sends evs = [].
Proof.
  induction 1 as [|e evs He _ IH]; [done|].
  destruct e; simpl in *; [done..|tauto].
Qed.

Lemma only_sends_quiet w w' :
  quiet w w' → only_sends (trace w') = only_sends (trace w).
Proof.
  intros (_ & _ & evs & -> & Hevs).
  by rewrite only_sends_app, (only_sends_no_send _ Hevs), app_nil_r.
Qed.

Lemma sends_snoc message conns outs c r :
  length conns = length outs →
  sends message (conns ++ [c]) (outs ++ [r])
  = sends message conns outs ++ [Send c message r].
Proof. intros Hlen. unfold sends. by rewrite zip_with_app. Qed.

Lemma failed_snoc conns outs c r :
  length conns = length outs →
  failed (conns ++ [c]) (outs ++ [r])
  = failed conns outs ++ (if is_raised r then [c] else []).
Proof.
  revert outs. induction conns as [|c0 conns IH]; intros [|o outs] Hlen;
    simpl in *; try done.
  rewrite IH by lia. by destruct (is_raised o).
Qed.

Lemma pass_so_far_start tr message snapshot :
  pass_so_far tr message snapshot 0 [].
Proof.
  exists (only_sends tr), []. rewrite take_0. simpl.
  rewrite app_nil_r. repeat split; try done. lia.
Qed.

Lemma pass_so_far_send tr message snapshot k to_remove conn r :
  pass_so_far tr message snapshot k to_remove →
  snapshot !! k = Some conn → is_pending r = false →
  pass_so_far (tr ++ [Send conn message r]) message snapshot (S k)
    (to_remove ++ (if is_raised r then [conn] else [])).
Proof.
  intros (before & outs & Htr & Hlen & Hk & -> & Hst) Hconn Hr.
  pose proof (lookup_lt_Some _ _ _ Hconn) as Hlt.
  assert (length (take k snapshot) = length outs) as Hlen'
    by (rewrite length_take; lia).
  exists before, (outs ++ [r]).
  rewrite (take_S_r _ _ _ Hconn), sends_snoc, failed_snoc by done.
  rewrite only_sends_app, Htr, <- app_assoc. simpl.
  repeat split; try done.
  - rewrite length_app. simpl. lia.
  - unfold stalled in *. rewrite existsb_app, Hst. simpl. by rewrite Hr.
Qed.

Lemma initialised_snoc ws tr message r :
  initialised ws tr → is_event message →
  initialised ws (tr ++ [Send ws message r]).
Proof.
  intros (ps & r0 & rest & Hs & Hrest) Hev.
  exists ps, r0, (rest ++ [(message, r)]).
  rewrite sends_to_snoc, decide_True, Hs by done. split; [done|].
  apply Forall_app. split; [done|]. by constructor.
Qed.

Lemma discard_subseteq x l : discard x l ⊆ l.
Proof.
  induction l as [|y l IH]; [done|].
  destruct (decide (x = y)) as [->|Hne].
  - rewrite discard_cons_eq. intros z Hz. by apply elem_of_cons; right.
  - rewrite discard_cons_ne by done. intros z [->|Hz]%elem_of_cons.
    + by apply elem_of_cons; left.
    + apply elem_of_cons; right. by apply IH.
Qed.

Lemma discard_NoDup x l : NoDup l → NoDup (discard x l).
Proof.
  intros Hnd. rewrite discard_NoDup_filter by done. by apply NoDup_filter.
Qed.

Lemma discard_all_subseteq xs l : discard_all xs l ⊆ l.
Proof.
  revert l. induction xs as [|x xs IH]; intros l; [done|].
  unfold discard_all in *. simpl. etrans; [apply IH|apply discard_subseteq].
Qed.

Lemma discard_all_NoDup xs l : NoDup l → NoDup (discard_all xs l).
Proof.
  intros Hnd. rewrite discard_all_NoDup_filter by done. by apply NoDup_filter.
Qed.

(** ** The invariant holds in every reachable state *)

Lemma Inv_initial table : Inv (initial table).
Proof. constructor; simpl; try done; auto using NoDup_nil_2. set_solver. Qed.

Lemma task_ok_quiet w w' t : quiet w w' → task_ok w t → task_ok w' t.
Proof.
  intros Hq. pose proof (λ ws, sends_to_quiet ws _ _ Hq) as Hsends.
  pose proof (only_sends_quiet _ _ Hq) as Honly.
  destruct Hq as (Hact & Hlock & _).
  destruct t as [ws []|[]]; simpl; unfold pass_so_far;
    rewrite ?Hsends, ?Hact, ?Hlock, ?Honly; done.
Qed.

Lemma Inv_open s websocket :
  (∀ i at_, tasks s !! i ≠ Some (Endpoint websocket at_)) →
  Inv s →
  Inv (BuildSystem (world s) (tasks s ++ [Endpoint websocket Accepting])).
Proof.
  intros Hfresh [].
  constructor; simpl; try done.
  - intros i t [[_ Hi]|[_ <-]]%lookup_snoc_Some; eauto.
    simpl. by apply inv_unknown0.
  - intros ws Hno. apply inv_unknown0. intros i at_ Hi.
    apply (Hno i at_), lookup_snoc_Some. left.
    split; [by eapply lookup_lt_Some|done].
  - intros i j ws at1 at2
      [[_ Hi]|[-> Hi]]%lookup_snoc_Some [[_ Hj]|[-> Hj]]%lookup_snoc_Some;
      simplify_eq; eauto; by edestruct Hfresh.
  - intros i j t1 t2
      [[_ Hi]|[-> <-]]%lookup_snoc_Some [[_ Hj]|[-> <-]]%lookup_snoc_Some;
      simpl; eauto; tauto.
Qed.

Lemma Inv_request s at_ w' :
  quiet (world s) w' →
  (∃ message, at_ = Locking message ∧ is_event message)
  ∨ (∃ r, at_ = HandlerEnded r) →
  Inv s →
  Inv (BuildSystem w' (tasks s ++ [Handler at_])).
Proof.
  intros Hq Hat [].
  pose proof (λ ws, sends_to_quiet ws _ _ Hq) as Hsends.
  pose proof Hq as (Hact & Hlock & _).
  constructor; simpl; rewrite ?Hact, ?Hlock; try done.
  - intros ws. rewrite Hsends. unfold initialised. rewrite Hsends.
    apply inv_channel0.
  - intros ws. rewrite Hsends. eauto.
  - intros i t [[_ Hi]|[_ <-]]%lookup_snoc_Some.
    + eapply task_ok_quiet; eauto.
    + by destruct Hat as [(m & -> & Hev)|[r ->]].
  - intros ws Hno. rewrite Hsends. apply inv_unknown0. intros i a Hi.
    apply (Hno i a), lookup_snoc_Some. left.
    split; [by eapply lookup_lt_Some|done].
  - intros i j ws at1 at2
      [[_ Hi]|[_ [=]]]%lookup_snoc_Some [[_ Hj]|[_ [=]]]%lookup_snoc_Some.
    eauto.
  - intros i j t1 t2
      [[_ Hi]|[-> <-]]%lookup_snoc_Some [[_ Hj]|[-> <-]]%lookup_snoc_Some;
      eauto; by destruct Hat as [(m & -> & Hev)|[r ->]].
Qed.

Lemma task_step_same_kind t w t' w' :
  task_step t w t' w' →
  match t, t' with
  | Endpoint ws _, Endpoint ws' _ => ws = ws'
  | Handler _, Handler _ => True
  | _, _ => False
  end.
Proof. by destruct 1. Qed.

Lemma unlocked_no_pass s j t :
  Inv s → lock (world s) = false → tasks s !! j = Some t → ¬ is_sending t.
Proof.
  intros Hinv Hl Hj Hs. apply (inv_task _ Hinv) in Hj.
  destruct t as [|[]]; simpl in *; try done. destruct Hj as [? _]. congruence.
Qed.

Lemma registered_not_fresh s ws :
  Inv s → sends_to ws (trace (world s)) = [] →
  ws ∉ active_connections (world s).
Proof. intros Hinv Hs Hin. by apply (inv_registered _ Hinv) in Hin. Qed.

(** Tasks that do not run keep what they know when another task sends to a
    registered listener. *)
Lemma task_ok_send s t conn message r :
  Inv s → conn ∈ active_connections (world s) → ¬ is_sending t →
  task_ok (world s) t →
  task_ok (BuildWorld (players (world s)) (active_connections (world s))
             (lock (world s)) (trace (world s) ++ [Send conn message r])) t.
Proof.
  intros Hinv Hconn Hns.
  destruct t as [ws []|[]]; simpl in *; try done.
  - intros Hs. rewrite sends_to_snoc_ne; [done|].
    intros ->. by apply (registered_not_fresh _ _ Hinv Hs).
  - intros Hs. rewrite sends_to_snoc_ne; [done|].
    intros ->. by apply (registered_not_fresh _ _ Hinv Hs).
  - intros (ps & rest & Hs). rewrite sends_to_snoc, Hs. simpl. eauto.
  - intros (ps & rest & Hs). rewrite sends_to_snoc, Hs. simpl. eauto.
Qed.

Lemma Inv_resume s i t t' w' :
  tasks s !! i = Some t → task_step t (world s) t' w' → Inv s →
  Inv (BuildSystem w' (<[i:=t']> (tasks s))).
Proof.
  intros Hi Hstep Hinv.
  pose proof (task_step_same_kind _ _ _ _ Hstep) as Hkind.
  pose proof (lookup_lt_Some _ _ _ Hi) as Hlt.
  assert (Hun : ∀ ws, (∀ j a, <[i:=t']> (tasks s) !! j ≠ Some (Endpoint ws a)) →
                      ∀ j a, tasks s !! j ≠ Some (Endpoint ws a)).
  { intros ws Hno j a Hj. destruct (decide (j = i)) as [->|Hne].
    - rewrite Hi in Hj. injection Hj as ->.
      destruct t' as [ws' a'|]; [|done]. subst ws'.
      apply (Hno i a'). by rewrite list_lookup_insert_eq.
    - apply (Hno j a). by rewrite list_lookup_insert_ne. }
  assert (Huq : ∀ j1 j2 ws a1 a2,
             <[i:=t']> (tasks s) !! j1 = Some (Endpoint ws a1) →
             <[i:=t']> (tasks s) !! j2 = Some (Endpoint ws a2) → j1 = j2).
  { assert (∀ j ws a, <[i:=t']> (tasks s) !! j = Some (Endpoint ws a) →
                      ∃ a0, tasks s !! j = Some (Endpoint ws a0)) as Hold.
    { intros j ws a [(-> & -> & _)|[_ Hj]]%list_lookup_insert_Some; [|eauto].
      destruct t as [ws0 a0|]; [|done]. subst ws0. eauto. }
    intros j1 j2 ws a1 a2 [a1' H1]%Hold [a2' H2]%Hold.
    eapply inv_unique; eauto. }
  assert (Hother : ∀ j t0, j ≠ i → <[i:=t']> (tasks s) !! j = Some t0 →
                           tasks s !! j = Some t0).
  { intros j t0 Hne. by rewrite list_lookup_insert_ne. }
  pose proof Hinv as [Hnd Hch Hreg Htask Hunk _ Hone].
  pose proof (Htask _ _ Hi) as Hti.
  inversion Hstep; subst; simpl in *.
  - (* accept *)
    constructor; simpl; eauto.
    + intros j t0 [(-> & <- & _)|[_ Hj]]%list_lookup_insert_Some; [|eauto].
      by destruct H as [->|[r ->]].
    + intros j1 j2 t1 t2
        [(-> & <- & _)|[_ H1]]%list_lookup_insert_Some
        [(-> & <- & _)|[_ H2]]%list_lookup_insert_Some; simpl; eauto; tauto.
  - (* connect *)
    assert (websocket ∉ active_connections (world s)) as Hnin
      by by apply registered_not_fresh.
    constructor; simpl.
    + apply NoDup_app. repeat split; [done| |apply NoDup_singleton].
      intros x Hx ->%list_elem_of_singleton. done.
    + intros ws. destruct (decide (websocket = ws)) as [<-|Hne].
      * right. exists (players (world s)), r, [].
        by rewrite sends_to_snoc, decide_True, Hti.
      * unfold initialised. rewrite sends_to_snoc_ne by done. apply Hch.
    + intros ws Hin. rewrite sends_to_snoc.
      destruct (decide (websocket = ws)) as [<-|Hne].
      * by destruct (sends_to websocket _).
      * rewrite app_nil_r. apply Hreg.
        apply elem_of_app in Hin as [?|?%list_elem_of_singleton]; done.
    + intros j t0 [(-> & <- & _)|[Hne Hj]]%list_lookup_insert_Some.
      * destruct r as [[]|e|]; simpl; [|done..].
        rewrite sends_to_snoc, decide_True, Hti by done. simpl. eauto.
      * pose proof (Htask _ _ Hj) as Hok.
        destruct t0 as [ws a|[]]; simpl in *; try done.
        -- assert (websocket ≠ ws) as Hws.
           { intros ->. apply Hne. eapply inv_unique; eauto. }
           by rewrite sends_to_snoc_ne.
        -- destruct Hok as [? _]. congruence.
    + intros ws Hno. pose proof (Hun _ Hno) as Hno'.
      rewrite sends_to_snoc_ne; [by apply Hunk|].
      intros ->. by eapply Hno'.
    + done.
    + intros j1 j2 t1 t2
        [(-> & <- & _)|[_ H1]]%list_lookup_insert_Some
        [(-> & <- & _)|[_ H2]]%list_lookup_insert_Some; simpl; try tauto.
      intros. by edestruct (unlocked_no_pass s j1 t1).
  - (* receive *)
    constructor; simpl; eauto.
    + intros j t0 [(-> & <- & _)|[_ Hj]]%list_lookup_insert_Some; [|eauto].
      by destruct H as [->|[r ->]].
    + intros j1 j2 t1 t2
        [(-> & <- & _)|[_ H1]]%list_lookup_insert_Some
        [(-> & <- & _)|[_ H2]]%list_lookup_insert_Some; simpl; eauto; tauto.
  - (* disconnect *)
    constructor; simpl; eauto using discard_NoDup.
    + intros ws Hin. apply Hreg. by apply (discard_subseteq websocket).
    + intros j t0 [(-> & <- & _)|[_ Hj]]%list_lookup_insert_Some; [done|].
      pose proof (Htask _ _ Hj) as Hok.
      destruct t0 as [ws []|[]]; simpl in *; try done.
      destruct Hok as [? _]. congruence.
    + intros j1 j2 t1 t2
        [(-> & <- & _)|[_ H1]]%list_lookup_insert_Some
        [(-> & <- & _)|[_ H2]]%list_lookup_insert_Some; simpl; try tauto.
      intros. by edestruct (unlocked_no_pass s j1 t1).
  - (* lock *)
    constructor; simpl; eauto.
    + intros j t0 [(-> & <- & _)|[_ Hj]]%list_lookup_insert_Some.
      { simpl. repeat split; try done. apply pass_so_far_start. }
      pose proof (Htask _ _ Hj) as Hok.
      destruct t0 as [ws []|[]]; simpl in *; try done.
      destruct Hok as [? _]. congruence.
    + intros j1 j2 t1 t2
        [(-> & <- & _)|[_ H1]]%list_lookup_insert_Some
        [(-> & <- & _)|[_ H2]]%list_lookup_insert_Some; simpl; try tauto.
      * intros _ ?. by edestruct (unlocked_no_pass s j2 t2).
      * intros ? _. by edestruct (unlocked_no_pass s j1 t1).
      * intros. by edestruct (unlocked_no_pass s j1 t1).
  - (* send *)
    destruct Hti as (Hlock & -> & Hev & Hpass).
    remember (match r with
              | Returned _ => Sending message (active_connections (world s))
                                (S k) to_remove
              | Raised _ => Sending message (active_connections (world s))
                              (S k) (to_remove ++ [conn])
              | Pending => HandlerEnded Pending
              end) as at' eqn:Hat'.
    assert (conn ∈ active_connections (world s)) as Hconn
      by by eapply list_elem_of_lookup_2.
    constructor; simpl; eauto.
    + intros ws. destruct (decide (conn = ws)) as [<-|Hne].
      * right. apply initialised_snoc; [|done].
        destruct (Hch conn) as [Hs|]; [|done]. by apply Hreg in Hconn.
      * unfold initialised. rewrite sends_to_snoc_ne by done. apply Hch.
    + intros ws Hin. rewrite sends_to_snoc. apply Hreg in Hin.
      by destruct (sends_to ws _).
    + intros j t0 [(-> & <- & _)|[Hne Hj]]%list_lookup_insert_Some.
      * subst at'. destruct r as [[]|e|]; simpl; [| |done].
        -- repeat split; try done.
           rewrite <- (app_nil_r to_remove).
           by apply (pass_so_far_send _ _ _ _ _ _ (Returned tt)).
        -- repeat split; try done.
           by apply (pass_so_far_send _ _ _ _ _ _ (Raised e)).
      * apply task_ok_send; eauto.
    + intros ws Hno. pose proof (Hun _ Hno) as Hno'.
      rewrite sends_to_snoc_ne; [by apply Hunk|].
      intros Heq. subst.
      by eapply (registered_not_fresh s _ Hinv (Hunk _ Hno')).
    + assert (∀ j t1, <[i:=Handler at']> (tasks s) !! j = Some t1 →
                is_sending t1 →
                ∃ t0, tasks s !! j = Some t0 ∧ is_sending t0) as Hold.
      { intros j t1 [(<- & _ & _)|[_ Hj]]%list_lookup_insert_Some ?;
          [|by eauto].
        eexists. split; [exact Hi|done]. }
      intros j1 j2 t1 t2 H1 H2 Hs1 Hs2. subst at'.
      destruct (Hold _ _ H1 Hs1) as (? & ? & ?).
      destruct (Hold _ _ H2 Hs2) as (? & ? & ?). eapply Hone; eauto.
  - (* finish *)
    constructor; simpl; eauto using discard_all_NoDup.
    + intros ws Hin. apply Hreg. by apply (discard_all_subseteq to_remove).
    + intros j t0 [(-> & <- & _)|[Hne Hj]]%list_lookup_insert_Some; [done|].
      pose proof (Htask _ _ Hj) as Hok.
      destruct t0 as [ws []|[]]; simpl in *; try done.
      destruct Hne. symmetry. eapply (Hone j i); eauto; done.
    + intros j1 j2 t1 t2
        [(-> & <- & _)|[Hne1 H1]]%list_lookup_insert_Some
        [(-> & <- & _)|[Hne2 H2]]%list_lookup_insert_Some; simpl; try tauto.
      eauto.
Qed.

Lemma Inv_step i s s' : Inv s → step i s s' → Inv s'.
Proof.
  intros Hinv Hstep. destruct Hstep as [s ws Hfresh|s env req at_ w' Hstart|
                                        s i env t t' w' Hi Hres].
  - by apply Inv_open.
  - apply start_handler_quiet in Hstart as [Hq Hat]. by apply Inv_request.
  - eapply Inv_resume; eauto using resume_task_step.
Qed.

Lemma Inv_steps s s' : Inv s → steps s s' → Inv s'.
Proof.
  intros Hinv Hsteps. induction Hsteps as [|s1 s2 s3 [i Hstep] _ IH]; [done|].
  eauto using Inv_step.
Qed.

Lemma reachable_Inv s : reachable s → Inv s.
Proof. intros [table Hsteps]. eauto using Inv_steps, Inv_initial. Qed.




(** ** Schedules are runs of the event loop *)

Lemma fire_step a s s' : fire a s = Some s' → ∃ i, step i s s'.
Proof.
  destruct a as [websocket|env req|env i]; simpl.
  - destruct (existsb _ _) eqn:Hex; [done|]. intros [= <-].
    eexists. apply step_open. intros i at_ Hi.
    assert (existsb (serves websocket) (tasks s) = true) as Hex'; [|congruence].
    apply existsb_exists. exists (Endpoint websocket at_). split.
    + apply list_elem_of_In. by eapply list_elem_of_lookup_2.
    + simpl. by apply bool_decide_eq_true.
  - destruct (start_handler env req (world s)) as [[at_| |] w'] eqn:Hs; try done.
    intros [= <-]. eexists. by eapply step_request.
  - destruct (tasks s !! i) as [t|] eqn:Hi; [|done].
    destruct (resume env t (world s)) as [[t'| |] w'] eqn:Hr; try done.
    intros [= <-]. eexists. by eapply step_resume.
Qed.

Lemma schedule_steps acts s s' : schedule acts s = Some s' → steps s s'.
Proof.
  revert s. induction acts as [|a acts IH]; intros s; simpl.
  - intros [= <-]. apply rtc_refl.
  - destruct (fire a s) as [s1|] eqn:Hf; [|done].
    intros Hs. eapply rtc_l; [by eapply fire_step|]. by apply IH.
Qed.

(** ** Who is removed at the end of a pass *)

Lemma failed_elem message conns outs c e :
  Send c message (Raised e) ∈ sends message conns outs →
  c ∈ failed conns outs.
Proof.
  unfold sends. revert outs.
  induction conns as [|c0 conns IH]; intros [|o outs]; simpl;
    try by intros ?%elem_of_nil.
  intros [[= -> <-]|Hin]%elem_of_cons.
  - simpl. by apply elem_of_cons; left.
  - destruct (is_raised o); [apply elem_of_cons; right|]; eauto.
Qed.

Lemma failed_elem_inv message conns outs c :
  c ∈ failed conns outs →
  ∃ e, Send c message (Raised e) ∈ sends message conns outs.
Proof.
  unfold sends. revert outs.
  induction conns as [|c0 conns IH]; intros [|o outs]; simpl;
    try by intros ?%elem_of_nil.
  destruct o as [[]|e|]; simpl.
  - intros [e He]%IH. exists e. by apply elem_of_cons; right.
  - intros [->|[e' He]%IH]%elem_of_cons.
    + exists e. by apply elem_of_cons; left.
    + exists e'. by apply elem_of_cons; right.
  - intros [e He]%IH. exists e. by apply elem_of_cons; right.
Qed.

Lemma sends_elem message conns outs c :
  length outs = length conns → c ∈ conns →
  ∃ r, Send c message r ∈ sends message conns outs.
Proof.
  unfold sends. revert outs.
  induction conns as [|c0 conns IH]; intros [|o outs] Hlen; simpl in *;
    try done; try by intros ?%elem_of_nil.
  intros [->|Hin]%elem_of_cons.
  - exists o. by apply elem_of_cons; left.
  - destruct (IH outs) as [r Hr]; [lia|done|].
    exists r. by apply elem_of_cons; right.
Qed.

Lemma resume_handler_sending env message snapshot k to_remove w at' w' :
  resume_handler env (Sending message snapshot k to_remove) w
  = (Returned at', w') →
  match snapshot !! k with
  | Some conn =>
      active_connections w' = active_connections w
      ∧ lock w' = lock w
      ∧ ∃ r, trace w' = trace w ++ [Send conn message r]
             ∧ at' = match r with
                     | Returned _ => Sending message snapshot (S k) to_remove
                     | Raised _ =>
                         Sending message snapshot (S k) (to_remove ++ [conn])
                     | Pending => HandlerEnded Pending
                     end
  | None =>
      active_connections w'
      = discard_all to_remove (active_connections w)
      ∧ lock w' = false
      ∧ trace w' = trace w
      ∧ at' = HandlerEnded (Returned tt)
  end.
Proof.
  intros Hres.
  assert (resume env (Handler (Sending message snapshot k to_remove)) w
          = (Returned (Handler at'), w')) as Hres'.
  { unfold resume, bind. by rewrite Hres. }
  apply resume_task_step in Hres'. inversion Hres'; subst.
  - match goal with H : snapshot !! k = Some _ |- _ => rewrite H end.
    simpl. eauto.
  - match goal with H : snapshot !! k = None |- _ => rewrite H end.
    simpl. eauto.
Qed.

(** ** The claims on the event loop *)

(** C1.  An endpoint registers its channel, reads the whole table and calls
    [send_json] with the init message in one run, with no suspension in
    between: on a free lock the run returns with the channel at the end of
    the registry, the lock free again and the init message, holding the
    whole table, as the one thing sent; while the lock is held the run
    does not start and nothing is registered or sent.  So in every
    reachable state: a registered channel has already been sent something;
    the first message sent on a channel is an init message and all later
    ones are events, none of them an init message; and a listener whose
    endpoint got past the init send has the init message delivered
    first. *)
Theorem init_precedes_events s :
  reachable s →
  (∀ env ws at' w',
     resume_endpoint env ws Connecting (world s) = (Returned at', w') →
     active_connections w' = active_connections (world s) ++ [ws]
     ∧ ∃ r, trace w'
            = trace (world s)
                ++ [Send ws (init_message (players (world s))) r])
  ∧ (∀ env ws,
       let r := send_result env (trace (world s)) ws
                  (init_message (players (world s))) in
       resume_endpoint env ws Connecting (world s)
       = if lock (world s) then (Pending, world s)
         else (Returned (match r with
                         | Returned _ => Receiving
                         | _ => EndpointEnded r
                         end),
               BuildWorld (players (world s))
                 (active_connections (world s) ++ [ws]) false
                 (trace (world s)
                    ++ [Send ws (init_message (players (world s))) r])))
  ∧ (∀ ws, ws ∈ active_connections (world s) →
           sends_to ws (trace (world s)) ≠ [])
  ∧ (∀ ws, sends_to ws (trace (world s)) = []
           ∨ ∃ all_players r rest,
               sends_to ws (trace (world s))
               = (init_message all_players, r) :: rest
               ∧ Forall (λ x, is_event x.1 ∧ ¬ is_init x.1) rest)
  ∧ (∀ i ws at_,
       tasks s !! i = Some (Endpoint ws at_) →
       at_ = Receiving ∨ at_ = Disconnecting →
       ∃ all_players rest,
         sends_to ws (trace (world s))
         = (init_message all_players, Returned tt) :: rest).
Proof.
  intros Hinv%reachable_Inv. split; [|split; [|split; [|split]]].
  - intros env ws at' w' Hrun.
    assert (resume env (Endpoint ws Connecting) (world s)
            = (Returned (Endpoint ws at'), w')) as Hres.
    { unfold resume, bind. by rewrite Hrun. }
    apply resume_task_step in Hres. inversion Hres. eauto.
  - intros env ws r. subst r. simpl.
    unfold bind, acquire, active_append, release, select_all, attempt,
      send_json, ret.
    destruct (lock (world s)); [done|]. simpl.
    by destruct (send_result env _ ws _).
  - apply (inv_registered _ Hinv).
  - intros ws. destruct (inv_channel _ Hinv ws) as [?|(ps & r & rest & Hs & Hr)];
      [by left|right].
    exists ps, r, rest. split; [done|].
    eapply Forall_impl; [exact Hr|]. eauto using is_event_not_init.
  - intros i ws at_ Hi Hat. pose proof (inv_task _ Hinv _ _ Hi) as Hok.
    by destruct Hat as [-> | ->].
Qed.

Lemma init_precedes_events_witness :
  reachable sample_pruned
  ∧ resume_endpoint env_ok 7 Connecting (world sample_pruned)
    = (Returned Receiving,
       BuildWorld [sample_player] [2; 7] false
         (trace (world sample_pruned)
            ++ [Send 7 (init_message [sample_player]) (Returned tt)]))
  ∧ active_connections (world sample_pruned) = [2]
  ∧ sends_to 2 (trace (world sample_pruned))
    = [(init_message [], Returned tt);
       (player_created sample_player, Returned tt)]
  ∧ sends_to 1 (trace (world sample_pruned))
    = [(init_message [], Returned tt);
       (player_created sample_player, Raised RuntimeError)]
  ∧ (∀ ws, ws ∈ active_connections (world sample_pruned) →
           sends_to ws (trace (world sample_pruned)) ≠ [])
  ∧ (∀ ws, sends_to ws (trace (world sample_pruned)) = []
           ∨ ∃ all_players r rest,
               sends_to ws (trace (world sample_pruned))
               = (init_message all_players, r) :: rest
               ∧ Forall (λ x, is_event x.1 ∧ ¬ is_init x.1) rest).
Proof.
  assert (reachable sample_pruned) as Hreach.
  { exists []. etrans.
    { apply (schedule_steps attach_two). vm_compute. reflexivity. }
    etrans.
    { apply (schedule_steps pass_with_failure). vm_compute. reflexivity. }
    apply (schedule_steps [Run (env_dead 1) 3]). vm_compute. reflexivity. }
  split; [exact Hreach|].
  destruct (init_precedes_events sample_pruned Hreach)
    as (_ & H1 & H2 & H3 & _).
  split; [rewrite (H1 env_ok 7); vm_compute; reflexivity|].
  split; [vm_compute; reflexivity|].
  split; [vm_compute; reflexivity|].
  split; [vm_compute; reflexivity|].
  split; [exact H2|exact H3].
Defined.

Lemma results_sends message conns outs :
  length outs = length conns → results (sends message conns outs) = outs.
Proof.
  unfold sends, results. revert outs.
  induction conns as [|c conns IH]; intros [|o outs] Hlen; simpl in *;
    try done.
  f_equal. apply IH. lia.
Qed.

Lemma last_sends_pass tr before message conns outs :
  only_sends tr = before ++ sends message conns outs →
  length outs = length conns →
  last_sends (length conns) tr = sends message conns outs.
Proof.
  intros Htr Hlen. unfold last_sends. rewrite Htr, length_app.
  assert (length (sends message conns outs) = length conns) as ->.
  { unfold sends. rewrite length_zip_with. lia. }
  replace (length before + length conns - length conns)
    with (length before) by lia.
  by rewrite drop_app_length.
Qed.

Lemma pruned_registry message conns outs :
  NoDup conns →
  (∀ c e, Send c message (Raised e) ∈ sends message conns outs →
          c ∉ discard_all (failed conns outs) conns)
  ∧ (∀ c, c ∈ conns →
          (∀ e, Send c message (Raised e) ∉ sends message conns outs) →
          c ∈ discard_all (failed conns outs) conns).
Proof.
  intros Hnd. rewrite discard_all_NoDup_filter by done. split.
  - intros c e Hin [Hnf _]%list_elem_of_filter.
    by apply Hnf, (failed_elem message _ _ _ e).
  - intros c Hc Hok. apply list_elem_of_filter. split; [|done].
    intros [e He]%(failed_elem_inv message). by apply (Hok e).
Qed.



Lemma deliver_keeps_registry env message conns to_remove w :
  active_connections (deliver env message conns to_remove w).2
  = active_connections w.
Proof. by rewrite deliver_run. Qed.

(** C4 (amended).  [broadcast] iterates over the registry as it is when
    the pass starts and sends the event to its listeners in that order: to
    all of them when every send completes, and otherwise to those up to the
    first one whose send never completes, after which nothing is removed
    and [broadcast] does not return.  The delivery loop itself leaves the
    registry alone; the failed listeners are removed after it.  In the event
    loop, as long as a task is inside the delivery loop the lock is held and
    the registry is still equal to the copy the task iterates over; the
    sends made so far are to the first [k] listeners of the copy; and the
    only run of the task that changes the registry is the one after the
    last listener. *)
Theorem broadcast_uses_stable_snapshot :
  (∀ env message w,
     lock w = false →
     let conns := active_connections w in
     let outs := outcomes env message conns (trace w ++ [Broadcast message]) in
     let w' := (broadcast env message w).2 in
     trace w' = trace w ++ Broadcast message :: sends message conns outs
     ∧ (stalled outs = false →
        length outs = length conns
        ∧ active_connections w' = discard_all (failed conns outs) conns)
     ∧ (stalled outs = true →
        (∃ outs0, outs = outs0 ++ [Pending] ∧ stalled outs0 = false
                  ∧ length outs0 < length conns)
        ∧ active_connections w' = conns
        ∧ (broadcast env message w).1 = Pending))
  ∧ (∀ env message conns to_remove w,
       active_connections (deliver env message conns to_remove w).2
       = active_connections w)
  ∧ (∀ s i message snapshot k to_remove,
       reachable s →
       tasks s !! i = Some (Handler (Sending message snapshot k to_remove)) →
       lock (world s) = true
       ∧ active_connections (world s) = snapshot
       ∧ let pass := last_sends k (trace (world s)) in
         pass = sends message (take k snapshot) (results pass)
         ∧ length pass = k ∧ k ≤ length snapshot)
  ∧ (∀ env message snapshot k to_remove w at' w',
       resume_handler env (Sending message snapshot k to_remove) w
       = (Returned at', w') →
       (k < length snapshot →
        active_connections w' = active_connections w)
       ∧ (length snapshot ≤ k →
          active_connections w'
          = discard_all to_remove (active_connections w)
          ∧ at' = HandlerEnded (Returned tt))).
Proof.
  split; [|split; [|split]].
  - intros env message w Hl conns outs w'.
    pose proof (broadcast_run env message w) as Hrun. simpl in Hrun.
    fold conns outs in Hrun. subst w'. rewrite Hrun, Hl.
    pose proof (outcomes_length env message conns
                  (trace w ++ [Broadcast message])) as Hlen.
    fold outs in Hlen.
    destruct (stalled outs) eqn:Hst; simpl.
    + split; [by rewrite <- app_assoc|]. split; [done|]. intros _.
      split; [|done].
      destruct (outcomes_stalled _ _ _ _ Hst) as (outs0 & Houts & H0).
      fold outs in Houts. exists outs0. split; [done|]. split; [done|].
      rewrite Houts, length_app in Hlen. simpl in Hlen. lia.
    + split; [by rewrite <- app_assoc|]. split; [|done]. intros _.
      split; [|done]. by apply outcomes_complete.
  - apply deliver_keeps_registry.
  - intros s i message snapshot k to_remove Hinv%reachable_Inv Hi.
    destruct (inv_task _ Hinv _ _ Hi)
      as (Hl & Hsnap & _ & before & outs & Htr & Hlen & Hle & _ & _).
    split; [done|]. split; [done|]. cbv zeta.
    assert (length (take k snapshot) = k) as Htk by (rewrite length_take; lia).
    assert (last_sends k (trace (world s))
            = sends message (take k snapshot) outs) as ->.
    { rewrite <- Htk at 1. eapply last_sends_pass; [done|lia]. }
    rewrite results_sends by lia. split; [done|]. split; [|done].
    unfold sends. rewrite length_zip_with. lia.
  - intros env message snapshot k to_remove w at' w' Hres.
    apply resume_handler_sending in Hres. split.
    + intros Hk. apply lookup_lt_is_Some in Hk as [conn Hconn].
      rewrite Hconn in Hres. by destruct Hres as (-> & _).
    + intros Hk. apply lookup_ge_None in Hk. rewrite Hk in Hres.
      by destruct Hres as (-> & _ & _ & ->).
Qed.

Lemma broadcast_uses_stable_snapshot_witness :
  (lock (world sample_attached) = false
   ∧ active_connections
       (broadcast (env_dead 1) (player_deleted "p") (world sample_attached)).2
     = [2])
  ∧ (reachable sample_loop_done
     ∧ tasks sample_loop_done !! 3
       = Some (Handler (Sending (player_created sample_player) [1; 2] 2 [1]))
     ∧ active_connections (world sample_loop_done) = [1; 2]
     ∧ length (last_sends 2 (trace (world sample_loop_done))) = 2)
  ∧ (resume_handler (env_dead 1)
       (Sending (player_created sample_player) [1; 2] 2 [1])
       (world sample_loop_done)
     = (Returned (HandlerEnded (Returned tt)), world sample_pruned)
     ∧ active_connections (world sample_pruned)
       = discard_all [1] (active_connections (world sample_loop_done))).
Proof.
  destruct broadcast_uses_stable_snapshot as (Hcall & _ & Hloop & Hend).
  split; [|split].
  - assert (lock (world sample_attached) = false) as Hl by reflexivity.
    split; [exact Hl|].
    destruct (Hcall (env_dead 1) (player_deleted "p") _ Hl)
      as (_ & Hdone & _).
    destruct Hdone as [_ ->]; vm_compute; reflexivity.
  - assert (reachable sample_loop_done) as Hr.
    { exists []. etrans.
      - apply (schedule_steps attach_two). vm_compute. reflexivity.
      - apply (schedule_steps pass_with_failure). vm_compute. reflexivity. }
    assert (tasks sample_loop_done !! 3
            = Some (Handler (Sending (player_created sample_player)
                               [1; 2] 2 [1]))) as Ht
      by (vm_compute; reflexivity).
    split; [exact Hr|]. split; [exact Ht|].
    destruct (Hloop _ _ _ _ _ _ Hr Ht) as (_ & Hsnap & _ & Hlen & _).
    split; [exact Hsnap|exact Hlen].
  - assert (resume_handler (env_dead 1)
              (Sending (player_created sample_player) [1; 2] 2 [1])
              (world sample_loop_done)
            = (Returned (HandlerEnded (Returned tt)), world sample_pruned))
      as Hres by (vm_compute; reflexivity).
    split; [exact Hres|].
    destruct (Hend _ _ _ _ _ _ _ _ Hres) as [_ Hfin].
    destruct Hfin as [Hact _]; [simpl; lia|exact Hact].
Defined.

(** C7.  [disconnect] never raises.  On a handle that is not in the
    registry it changes nothing, and with the lock free it returns.  On a
    registry without duplicates, as every registry the server builds is,
    disconnecting twice is the same as disconnecting once. *)
Theorem disconnect_idempotent :
  (∀ websocket w e, (disconnect websocket w).1 ≠ Raised e)
  ∧ (∀ websocket w,
       websocket ∉ active_connections w →
       (disconnect websocket w).2 = w
       ∧ (lock w = false → (disconnect websocket w).1 = Returned tt))
  ∧ (∀ websocket w,
       NoDup (active_connections w) →
       (disconnect websocket ;;; disconnect websocket) w
       = disconnect websocket w)
  ∧ (∀ s, reachable s → NoDup (active_connections (world s))).
Proof.
  split; [|split; [|split]].
  - intros websocket w e. rewrite disconnect_run. by destruct (lock w).
  - intros websocket w Hnin. rewrite disconnect_run, discard_not_in by done.
    destruct w as [? ? [] ?]; simpl; by split.
  - apply disconnect_twice.
  - intros s Hinv%reachable_Inv. apply Hinv.
Qed.

Lemma disconnect_idempotent_witness :
  (3 ∉ active_connections (world sample_attached))
  ∧ disconnect 3 (world sample_attached)
    = (Returned tt, world sample_attached)
  ∧ (disconnect 1 ;;; disconnect 1) (world sample_attached)
    = disconnect 1 (world sample_attached)
  ∧ active_connections (disconnect 1 (world sample_attached)).2 = [2].
Proof.
  destruct disconnect_idempotent as (_ & Hnoop & Htwice & Hnd).
  assert (3 ∉ active_connections (world sample_attached)) as Hnin.
  { vm_compute. intros He.
    apply elem_of_cons in He as [He|He]; [discriminate He|].
    apply elem_of_cons in He as [He|He]; [discriminate He|].
    by apply elem_of_nil in He. }
  assert (reachable sample_attached) as Hr.
  { exists []. apply (schedule_steps attach_two). vm_compute. reflexivity. }
  split; [exact Hnin|]. split; [|split].
  - destruct (Hnoop 3 (world sample_attached) Hnin) as [Hw Hret].
    rewrite (surjective_pairing (disconnect 3 (world sample_attached))).
    rewrite Hw, Hret; reflexivity.
  - apply Htwice, Hnd, Hr.
  - vm_compute. reflexivity.
Defined.

(** ** Instances *)

Lemma broadcast_never_raises_witness :
  lock (world sample_attached) = false
  ∧ (∀ tr c, send_result (env_dead 1) tr c (player_deleted "p") ≠ Pending)
  ∧ (broadcast (env_dead 1) (player_deleted "p") (world sample_attached)).1
    = Returned tt.
Proof.
  assert (lock (world sample_attached) = false) as Hl by reflexivity.
  assert (∀ tr c, send_result (env_dead 1) tr c (player_deleted "p")
                  ≠ Pending) as Hnp.
  { intros tr c. simpl. destruct (decide (c = 1)); discriminate. }
  split; [exact Hl|]. split; [exact Hnp|].
  exact (proj2 (broadcast_never_raises (env_dead 1) (player_deleted "p")
                  (world sample_attached)) Hl Hnp).
Defined.

Lemma mutation_commits_then_broadcasts_once_witness :
  find (has_id "nobody") (players (world sample_pruned)) = None
  ∧ delete_player env_ok "nobody" (world sample_pruned)
    = (Raised (HTTPException 404 "Player not found"), world sample_pruned)
  ∧ find (has_id (Player.id sample_player)) (players (world sample_pruned))
    = Some sample_player
  ∧ storable sample_stats = true
  ∧ players (update_stats env_ok (Player.id sample_player) sample_stats
               (world sample_pruned)).2
    = [with_stats sample_stats sample_player]
  ∧ storable sample_overflow = false
  ∧ (∃ e, (e = OverflowError ∨ e = IntegrityError)
          ∧ update_stats env_ok (Player.id sample_player) sample_overflow
              (world sample_pruned)
            = (Raised e, world sample_pruned))
  ∧ players (delete_player env_ok (Player.id sample_player)
               (world sample_pruned)).2
    = [].
Proof.
  assert (find (has_id "nobody") (players (world sample_pruned)) = None)
    as Hnone by (vm_compute; reflexivity).
  assert (find (has_id (Player.id sample_player))
               (players (world sample_pruned)) = Some sample_player)
    as Hsome by (vm_compute; reflexivity).
  assert (storable sample_stats = true) as Hs by (vm_compute; reflexivity).
  assert (storable sample_overflow = false) as Ho
    by (vm_compute; reflexivity).
  destruct (mutation_commits_then_broadcasts_once env_ok "nobody"
              (world sample_pruned)) as [Hmiss _].
  destruct (mutation_commits_then_broadcasts_once env_ok
              (Player.id sample_player) (world sample_pruned))
    as [_ Hfound].
  destruct (Hfound _ Hsome) as (Hupd & Hbad & Hdel).
  split; [exact Hnone|]. split; [exact (proj2 (Hmiss Hnone))|].
  split; [exact Hsome|]. split; [exact Hs|]. split; [|split; [exact Ho|split]].
  - rewrite (proj1 (Hupd sample_stats Hs)). vm_compute. reflexivity.
  - exact (Hbad sample_overflow Ho).
  - rewrite (proj1 Hdel). vm_compute. reflexivity.
Defined.

Lemma update_stats_changes_three_fields_witness :
  find (has_id (Player.id sample_player)) (players (world sample_pruned))
  = Some sample_player
  ∧ storable sample_stats = true
  ∧ ∃ p', find (has_id (Player.id sample_player))
               (players (update_stats env_ok (Player.id sample_player)
                           sample_stats (world sample_pruned)).2)
          = Some p'
          ∧ Player.matches p' = VInt 261
          ∧ Player.average p' = VFloat 59.5%float
          ∧ Player.name p' = VStr "Virat Kohli".
Proof.
  assert (find (has_id (Player.id sample_player))
               (players (world sample_pruned)) = Some sample_player)
    as Hsome by (vm_compute; reflexivity).
  assert (storable sample_stats = true) as Hs by (vm_compute; reflexivity).
  split; [exact Hsome|]. split; [exact Hs|].
  destruct (proj1 (update_stats_changes_three_fields env_ok
                     (Player.id sample_player) sample_stats
                     (world sample_pruned) sample_player Hsome) Hs)
    as [(p' & Hp' & Hm & _ & _ & Ha & _ & Hn & _) _].
  exists p'. split; [exact Hp'|]. split; [exact Hm|].
  split; [|exact Hn]. apply Ha. vm_compute. reflexivity.
Defined.


Lemma broadcast_waits_for_each_send_witness :
  lock sample_two = false
  ∧ trace (broadcast (env_stalled 1) (player_deleted "p") sample_two).2
    = [Broadcast (player_deleted "p");
       Send 1 (player_deleted "p") Pending]
  ∧ (broadcast env_ok (player_deleted "q")
       (broadcast (env_stalled 1) (player_deleted "p") sample_two).2).1
    = Pending
  ∧ disconnect 2 (broadcast (env_stalled 1) (player_deleted "p") sample_two).2
    = (Pending,
       (broadcast (env_stalled 1) (player_deleted "p") sample_two).2)
  ∧ (connect env_ok 3
       (broadcast (env_stalled 1) (player_deleted "p") sample_two).2).2
    = (broadcast (env_stalled 1) (player_deleted "p") sample_two).2
  ∧ (broadcast (env_dead 1) (player_deleted "p") sample_two).1 = Returned tt.
Proof.
  assert (lock sample_two = false) as Hl by reflexivity.
  split; [exact Hl|].
  destruct (broadcast_waits_for_each_send (env_stalled 1)
              (player_deleted "p") sample_two Hl) as [Htr Hcases].
  split; [rewrite Htr; vm_compute; reflexivity|].
  destruct Hcases as [(Hst & _)|(outs0 & _ & _ & _ & _ & _ & _ & Hb & Hd & Hc)].
  { vm_compute in Hst. discriminate Hst. }
  split; [exact (proj1 (Hb env_ok (player_deleted "q")))|].
  split; [exact (Hd 2)|].
  split; [exact (proj2 (Hc env_ok 3 tt))|].
  destruct (broadcast_waits_for_each_send (env_dead 1)
              (player_deleted "p") sample_two Hl)
    as [_ [(_ & _ & Hret & _)|Hstall]].
  - exact Hret.
  - destruct Hstall as (outs0' & Houts & _).
    vm_compute in Houts. by destruct outs0' as [|? [|? [|? ?]]].
Defined.

(** ** A send that never completes wedges the registry *)

Lemma wedged_step i s s' :
  wedged s → step i s s' →
  wedged s'
  ∧ active_connections (world s') = active_connections (world s)
  ∧ ∀ ws, sends_to ws (trace (world s')) = sends_to ws (trace (world s)).
Proof.
  intros [Hl Hns] Hstep.
  destruct Hstep as [s ws0 Hfresh|s env req at_ w' Hstart|
                     s i env t t' w' Hi Hres]; simpl.
  - split; [|done]. split; [done|]. simpl.
    intros j t [[_ Hj]|[_ <-]]%lookup_snoc_Some;
      [by eapply Hns|simpl; tauto].
  - apply start_handler_quiet in Hstart as [Hq Hat].
    pose proof Hq as (Hact & Hlock & _).
    split; [|split; [done|]].
    + split; simpl; [congruence|].
      intros j t [[_ Hj]|[_ <-]]%lookup_snoc_Some; [by eapply Hns|].
      destruct Hat as [(m & -> & _)|[r ->]]; simpl; tauto.
    + intros ws. by apply sends_to_quiet.
  - pose proof (Hns _ _ Hi) as Hnt.
    apply resume_task_step in Hres.
    inversion Hres; subst; simpl in *; try congruence; try done.
    + split; [|done]. split; [done|]. simpl.
      intros j t [(_ & <- & _)|[_ Hj]]%list_lookup_insert_Some;
        [simpl; tauto|by eapply Hns].
    + split; [|done]. split; [done|]. simpl.
      intros j t [(_ & <- & _)|[_ Hj]]%list_lookup_insert_Some;
        [simpl; tauto|by eapply Hns].
Qed.

Lemma wedged_steps s s' :
  wedged s → steps s s' →
  wedged s'
  ∧ active_connections (world s') = active_connections (world s)
  ∧ ∀ ws, sends_to ws (trace (world s')) = sends_to ws (trace (world s)).
Proof.
  intros Hw Hsteps. induction Hsteps as [|s1 s2 s3 [i Hstep] _ IH]; [done|].
  destruct (wedged_step _ _ _ Hw Hstep) as (Hw2 & Hact & Hsends).
  destruct (IH Hw2) as (Hw3 & Hact3 & Hsends3).
  split; [done|]. split; [congruence|]. intros ws.
  by rewrite Hsends3, Hsends.
Qed.

(** ** Where the code departs from the claims *)

(** C5 (the code at the failing input).  The first send on channel 1, the
    init message, raises.  [websocket_endpoint] lets the exception escape
    and leaves the channel in the registry; the next broadcast still calls
    [send_json] on it, and only that pass removes it.  The same in the event
    loop: the endpoint has ended with the exception, its channel is
    registered, and the broadcast of a later request sends to it. *)
Theorem init_failure_leaves_listener_registered :
  ((websocket_endpoint (env_dead 1) 1 sample_empty).1 = Raised RuntimeError
   ∧ active_connections (websocket_endpoint (env_dead 1) 1 sample_empty).2
     = [1]
   ∧ sends_to 1
       (trace (broadcast (env_dead 1) (player_deleted "p")
                 (websocket_endpoint (env_dead 1) 1 sample_empty).2).2)
     = [(init_message [], Raised RuntimeError);
        (player_deleted "p", Raised RuntimeError)]
   ∧ active_connections
       (broadcast (env_dead 1) (player_deleted "p")
          (websocket_endpoint (env_dead 1) 1 sample_empty).2).2
     = [])
  ∧ (reachable sample_half_attached
     ∧ tasks sample_half_attached
       = [Endpoint 1 (EndpointEnded (Raised RuntimeError))]
     ∧ active_connections (world sample_half_attached) = [1]
     ∧ steps sample_half_attached sample_half_attached_later
     ∧ sends_to 1 (trace (world sample_half_attached_later))
       = [(init_message [], Raised RuntimeError);
          (player_created sample_player, Raised RuntimeError)]).
Proof.
  split.
  - vm_compute. done.
  - split; [|split; [|split; [|split]]].
    + exists []. apply (schedule_steps attach_dead). vm_compute. reflexivity.
    + vm_compute. reflexivity.
    + vm_compute. reflexivity.
    + apply (schedule_steps [Arrive (env_dead 1) (CreatePlayer sample_body);
                             Run (env_dead 1) 1; Run (env_dead 1) 1]).
      vm_compute. reflexivity.
    + vm_compute. reflexivity.
Qed.

(** C8 (counterexample).  Listeners 1 and 2 are registered and the send to
    listener 1 never completes: [broadcast] does not return, listener 2 is
    sent nothing, the lock stays held, and a second broadcast waits for it
    without sending anything either.  In the event loop, whatever runs after
    the stalled send, the lock is never released and listener 2, which is
    registered, is never sent anything after its init message. *)
Lemma stalled_listener_blocks_pass :
  ((broadcast (env_stalled 1) (player_deleted "p") sample_two).1 = Pending
   ∧ sends_to 2
       (trace (broadcast (env_stalled 1) (player_deleted "p") sample_two).2)
     = []
   ∧ lock (broadcast (env_stalled 1) (player_deleted "p") sample_two).2
     = true
   ∧ (broadcast (env_stalled 1) (player_deleted "q")
        (broadcast (env_stalled 1) (player_deleted "p") sample_two).2).1
     = Pending
   ∧ sends_to 2
       (trace (broadcast (env_stalled 1) (player_deleted "q")
                 (broadcast (env_stalled 1) (player_deleted "p")
                    sample_two).2).2)
     = [])
  ∧ (reachable sample_wedged
     ∧ tasks sample_wedged !! 2 = Some (Handler (HandlerEnded Pending))
     ∧ ∀ s', steps sample_wedged s' →
             lock (world s') = true
             ∧ active_connections (world s') = [1; 2]
             ∧ sends_to 2 (trace (world s'))
               = [(init_message [], Returned tt)]).
Proof.
  split.
  - vm_compute. done.
  - split; [|split].
    + exists []. etrans.
      * apply (schedule_steps attach_two). vm_compute. reflexivity.
      * apply (schedule_steps [Arrive env_ok (CreatePlayer sample_body);
                               Run (env_stalled 1) 2; Run (env_stalled 1) 2]).
        vm_compute. reflexivity.
    + vm_compute. reflexivity.
    + intros s' Hsteps.
      assert (wedged sample_wedged) as Hw.
      { split; [reflexivity|]. intros i t Hi.
        destruct i as [|[|[|i]]]; vm_compute in Hi; try discriminate Hi;
          injection Hi as <-; exact id. }
      destruct (wedged_steps _ _ Hw Hsteps) as ([Hl _] & Hact & Hsends).
      split; [exact Hl|]. split.
      * rewrite Hact. vm_compute. reflexivity.
      * rewrite Hsends. vm_compute. reflexivity.
Qed.


(** C4 (counterexample).  Listeners 1, 2 and 3 are in the copy that the
    pass iterates over and the send to listener 2 never completes: the
    sends of the pass are those to listeners 1 and 2, and delivery to
    listener 3 is never attempted. *)
Lemma stalled_send_skips_later_listeners :
  lock (world sample_three) = false
  ∧ active_connections (world sample_three) = [1; 2; 3]
  ∧ let r := broadcast (env_stalled 2) (player_deleted "p")
               (world sample_three) in
    r.1 = Pending
    ∧ trace r.2
      = trace (world sample_three)
          ++ [Broadcast (player_deleted "p");
              Send 1 (player_deleted "p") (Returned tt);
              Send 2 (player_deleted "p") Pending]
    ∧ ∀ o, Send 3 (player_deleted "p") o ∉ trace r.2.
Proof.
  split; [vm_compute; reflexivity|]. split; [vm_compute; reflexivity|].
  cbv zeta. split; [vm_compute; reflexivity|].
  assert (trace (broadcast (env_stalled 2) (player_deleted "p")
                   (world sample_three)).2
          = trace (world sample_three)
              ++ [Broadcast (player_deleted "p");
                  Send 1 (player_deleted "p") (Returned tt);
                  Send 2 (player_deleted "p") Pending]) as Htr
    by (vm_compute; reflexivity).
  split; [exact Htr|].
  intros o Hin%sends_to_elem. rewrite Htr in Hin.
  vm_compute in Hin. apply elem_of_cons in Hin as [[=]|Hin].
  by apply elem_of_nil in Hin.
Qed.

(** C6 (counterexample).  The player exists and the supplied count of
    matches is 2^63: the commit raises [OverflowError], nothing is
    committed and [broadcast] is not called; the whole state is as it
    was. *)
Lemma overflowing_update_is_not_committed :
  find (has_id (Player.id sample_player)) (players (world sample_pruned))
  = Some sample_player
  ∧ update_stats env_ok (Player.id sample_player) sample_overflow
      (world sample_pruned)
    = (Raised OverflowError, world sample_pruned).
Proof. split; vm_compute; reflexivity. Qed.

(** C9 (counterexample).  The player exists.  With an average that is not a
    number the commit raises [IntegrityError] and the row keeps its old
    statistics; with an average of minus zero the row is given [0.0], which
    is another double than the one supplied. *)
Lemma nan_or_minus_zero_average_is_not_stored :
  find (has_id (Player.id sample_player)) (players (world sample_pruned))
  = Some sample_player
  ∧ update_stats env_ok (Player.id sample_player) sample_nan
      (world sample_pruned)
    = (Raised IntegrityError, world sample_pruned)
  ∧ (Player.average
       <$> find (has_id (Player.id sample_player))
             (players (update_stats env_ok (Player.id sample_player)
                         sample_minus_zero (world sample_pruned)).2))
    = Some (VFloat 0)
  ∧ VFloat 0 ≠ VFloat (StatsBase.average sample_minus_zero).
Proof.
  split; [vm_compute; reflexivity|]. split; [vm_compute; reflexivity|].
  split; [vm_compute; reflexivity|].
  intros [=].
Qed.

(** ** A handler that runs alone in the event loop *)

Lemma fire_run env i s t t' w' :
  tasks s !! i = Some t →
  resume env t (world s) = (Returned t', w') →
  fire (Run env i) s = Some (BuildSystem w' (<[i:=t']> (tasks s))).
Proof. intros Hi Hres. simpl. by rewrite Hi, Hres. Qed.

Lemma resume_locking env message w :
  lock w = false →
  resume env (Handler (Locking message)) w
  = (Returned (Handler (Sending message (active_connections w) 0 [])),
     set_lock true w).
Proof.
  intros Hl. simpl. unfold bind, acquire, get_active, ret. by rewrite Hl.
Qed.

Lemma resume_sending_next env message snapshot k to_remove conn w :
  snapshot !! k = Some conn →
  is_pending (send_result env (trace w) conn message) = false →
  resume env (Handler (Sending message snapshot k to_remove)) w
  = (Returned
       (Handler
          (Sending message snapshot (S k)
             (to_remove
                ++ (if is_raised (send_result env (trace w) conn message)
                    then [conn] else [])))),
     BuildWorld (players w) (active_connections w) (lock w)
       (trace w ++ [Send conn message (send_result env (trace w) conn message)])).
Proof.
  intros Hk Hnp. simpl. rewrite Hk. unfold bind, attempt.
  rewrite send_or_collect_run. simpl.
  destruct (send_result env (trace w) conn message) as [[]|e|]; simpl in *;
    try done.
  by rewrite app_nil_r.
Qed.

Lemma resume_sending_end env message snapshot k to_remove w :
  snapshot !! k = None →
  resume env (Handler (Sending message snapshot k to_remove)) w
  = (Returned (Handler (HandlerEnded (Returned tt))),
     BuildWorld (players w) (discard_all to_remove (active_connections w))
       false (trace w)).
Proof.
  intros Hk. simpl. rewrite Hk. unfold bind, attempt.
  by rewrite remove_failed_run.
Qed.

(** From any point of the delivery loop, resuming the task once for each
    listener that is left and once more ends the pass as [deliver] and
    [remove_failed] do. *)
Lemma sending_schedule env message i rest :
  ∀ done to_remove s,
    tasks s !! i
    = Some (Handler (Sending message (done ++ rest) (length done) to_remove)) →
    stalled (outcomes env message rest (trace (world s))) = false →
    schedule (replicate (S (length rest)) (Run env i)) s
    = Some (BuildSystem
              (BuildWorld (players (world s))
                 (discard_all
                    (to_remove
                       ++ failed rest
                            (outcomes env message rest (trace (world s))))
                    (active_connections (world s)))
                 false
                 (trace (world s)
                    ++ sends message rest
                         (outcomes env message rest (trace (world s)))))
              (<[i:=Handler (HandlerEnded (Returned tt))]> (tasks s))).
Proof.
  induction rest as [|conn rest IH]; intros done to_remove s Hi Hst.
  - change (replicate (S (length (@nil WebSocket))) (Run env i))
      with [Run env i].
    cbn [schedule].
    assert ((done ++ []) !! length done = None) as Hk.
    { apply lookup_ge_None. rewrite length_app. simpl. lia. }
    rewrite (fire_run _ _ _ _ _ _ Hi (resume_sending_end _ _ _ _ _ _ Hk)).
    simpl. by rewrite !app_nil_r.
  - assert ((done ++ conn :: rest) !! length done = Some conn) as Hk.
    { by rewrite lookup_app_r, Nat.sub_diag by lia. }
    simpl in Hst. apply orb_false_iff in Hst as [Hnp Hst].
    rewrite Hnp in Hst.
    change (replicate (S (length (conn :: rest))) (Run env i))
      with (Run env i :: replicate (S (length rest)) (Run env i)).
    cbn [schedule].
    rewrite (fire_run _ _ _ _ _ _ Hi
               (resume_sending_next _ _ _ _ _ _ _ Hk Hnp)).
    erewrite (IH (done ++ [conn])
                (to_remove
                   ++ (if is_raised
                            (send_result env (trace (world s)) conn message)
                       then [conn] else []))).
    + simpl. rewrite Hnp, list_insert_insert_eq. do 3 f_equal.
      * by destruct (is_raised _); rewrite <- app_assoc.
      * by rewrite <- app_assoc.
    + simpl. rewrite length_app, Nat.add_1_r, <- app_assoc.
      apply list_lookup_insert_eq. by eapply lookup_lt_Some.
    + done.
Qed.

Lemma handle_world env req w :
  (handle env req w).2
  = match handler_commit env req w with
    | (Returned message, w1) => (broadcast env message w1).2
    | (_, w1) => w1
    end
  ∧ (handle env req w).1
    = match handler_commit env req w with
      | (Returned message, w1) =>
          match (broadcast env message w1).1 with
          | Returned _ => (handle env req w).1
          | Raised e => Raised e
          | Pending => Pending
          end
      | (Raised e, _) => Raised e
      | (Pending, _) => Pending
      end.
Proof.
  destruct req as [data|player_id stats|player_id]; simpl;
    unfold create_player, update_stats, delete_player, bind, ret.
  - destruct (create_player_commit env data w) as [[p|e|] w1]; [|done..].
    by destruct (broadcast env (player_created p) w1) as [[[]|e|] w2].
  - destruct (update_stats_commit env player_id stats w) as [[p|e|] w1];
      [|done..].
    by destruct (broadcast env (stats_updated p) w1) as [[[]|e|] w2].
  - destruct (delete_player_commit player_id w) as [[[]|e|] w1]; [|done..].
    by destruct (broadcast env (player_deleted player_id) w1) as [[[]|e|] w2].
Qed.

(** The event loop can run a handler from the arrival of its request to its
    end with nothing in between, and then the state is the one the handler
    gives as a single call: what is proved of one call holds of such runs. *)
Theorem handler_runs_alone env req s :
  lock (world s) = false →
  (handle env req (world s)).1 ≠ Pending →
  ∃ n s',
    schedule (Arrive env req :: replicate n (Run env (length (tasks s)))) s
    = Some s'
    ∧ world s' = (handle env req (world s)).2
    ∧ ∃ r, tasks s' = tasks s ++ [Handler (HandlerEnded r)].
Proof.
  intros Hl Hnp.
  destruct (handle_world env req (world s)) as [Hw Hr].
  destruct (handler_commit_quiet env req (world s)) as [Hq _].
  cbn [schedule fire]. unfold start_handler, bind, attempt.
  destruct (handler_commit env req (world s)) as [[message|e|] w1] eqn:Hc;
    simpl in *.
  - destruct Hq as (Hact & Hlock & _). rewrite Hl in Hlock.
    pose proof (broadcast_run env message w1) as Hrun. simpl in Hrun.
    rewrite Hlock in Hrun.
    destruct (stalled _) eqn:Hst.
    { rewrite Hrun in Hr. simpl in Hr. congruence. }
    exists (S (S (length (active_connections w1)))).
    set (s1 := BuildSystem
                 (BuildWorld (players w1) (active_connections w1) (lock w1)
                    (trace w1 ++ [Broadcast message]))
                 (tasks s ++ [Handler (Locking message)])).
    assert (tasks s1 !! length (tasks s) = Some (Handler (Locking message)))
      as Hi.
    { simpl. by rewrite lookup_app_r, Nat.sub_diag by lia. }
    change (replicate (S (S (length (active_connections w1))))
              (Run env (length (tasks s))))
      with (Run env (length (tasks s))
              :: replicate (S (length (active_connections w1)))
                   (Run env (length (tasks s)))).
    cbn [schedule]. fold s1.
    rewrite (fire_run env _ s1 _ _ _ Hi
               (resume_locking env message (world s1) Hlock)).
    rewrite (sending_schedule env message (length (tasks s))
               (active_connections w1) [] []).
    + eexists. split; [reflexivity|]. simpl. split.
      * by rewrite Hw, Hrun.
      * rewrite list_insert_insert_eq.
        exists (Returned tt).
        replace (length (tasks s)) with (length (tasks s) + 0) by lia.
        by rewrite insert_app_r.
    + simpl. apply list_lookup_insert_eq.
      rewrite length_app. simpl. lia.
    + done.
  - exists 0. eexists. split; [reflexivity|]. simpl. split; [done|eauto].
  - congruence.
Qed.

Lemma receive_loop_world env websocket w :
  (receive_loop env websocket w).2 = w
  ∧ ∀ a, (receive_loop env websocket w).1 ≠ Returned a.
Proof.
  unfold receive_loop. generalize (inbound env websocket).2.
  induction ((inbound env websocket).1) as [|f fs IH]; intros [e|]; simpl;
    auto.
Qed.

(** The same for an endpoint: resumed again and again with nothing in
    between, it ends as [websocket_endpoint] does as a single call. *)
Theorem endpoint_runs_alone env websocket s i :
  tasks s !! i = Some (Endpoint websocket Accepting) →
  lock (world s) = false →
  ∃ n s',
    schedule (replicate n (Run env i)) s = Some s'
    ∧ world s' = (websocket_endpoint env websocket (world s)).2
    ∧ tasks s'
      = <[i:=Endpoint websocket
               (EndpointEnded
                  (websocket_endpoint env websocket (world s)).1)]> (tasks s).
Proof.
  intros Hi Hl. pose proof (lookup_lt_Some _ _ _ Hi) as Hlt.
  destruct s as [w ts]. simpl in *.
  destruct (receive_loop_world env websocket
              (BuildWorld (players w) (active_connections w ++ [websocket])
                 false
                 (trace w
                    ++ [Send websocket (init_message (players w))
                          (Returned tt)])))
    as [Hrw Hrr].
  unfold websocket_endpoint, connect, bind, accept, try_except_disconnect.
  rewrite async_with_lock_run. simpl. rewrite Hl.
  destruct (accept_result env (trace w) websocket) as [[]|e|] eqn:Hacc.
  2,3: by (exists 1; eexists; split;
           [simpl; rewrite Hi; simpl; unfold bind, attempt, accept, ret; simpl;
            rewrite Hacc; simpl; reflexivity|]).
  simpl. unfold send_json. simpl.
  destruct (send_result env (trace w) websocket (init_message (players w)))
    as [[]|e|] eqn:Hinit.
  2,3: by (exists 2; eexists; split;
           [simpl; rewrite Hi; simpl; unfold bind, attempt, accept, ret; simpl;
            rewrite Hacc; simpl;
            rewrite list_lookup_insert_eq by done; simpl;
            unfold bind, acquire, attempt, send_json, ret; simpl;
            rewrite Hl; simpl; rewrite Hinit; simpl; reflexivity
           |simpl; by rewrite list_insert_insert_eq]).
  simpl.
  destruct (receive_loop env websocket _) as [rr wr] eqn:Hloop.
  simpl in Hrw, Hrr. subst wr.
  assert (rr = Raised WebSocketDisconnect ∨ rr ≠ Raised WebSocketDisconnect)
    as [->|Hother].
  { destruct rr as [|[]|]; auto; right; discriminate. }
  - exists 4. eexists. split.
    + simpl; rewrite Hi; simpl; unfold bind, attempt, accept, ret; simpl;
            rewrite Hacc; simpl;
            rewrite list_lookup_insert_eq by done; simpl;
            unfold bind, acquire, attempt, send_json, ret; simpl;
            rewrite Hl; simpl; rewrite Hinit; simpl.
      rewrite list_lookup_insert_eq by (by rewrite length_insert). simpl.
      unfold bind, attempt, ret. rewrite Hloop. simpl.
      rewrite list_lookup_insert_eq by (by rewrite !length_insert). simpl.
      unfold bind, acquire, attempt, release, ret. simpl.
      rewrite remove_if_present_run. simpl. reflexivity.
    + simpl. rewrite !list_insert_insert_eq.
      rewrite disconnect_run. simpl. done.
  - exists 3. eexists. split.
    + simpl; rewrite Hi; simpl; unfold bind, attempt, accept, ret; simpl;
            rewrite Hacc; simpl;
            rewrite list_lookup_insert_eq by done; simpl;
            unfold bind, acquire, attempt, send_json, ret; simpl;
            rewrite Hl; simpl; rewrite Hinit; simpl.
      rewrite list_lookup_insert_eq by (by rewrite length_insert). simpl.
      unfold bind, attempt, ret. rewrite Hloop. simpl. reflexivity.
    + simpl. rewrite !list_insert_insert_eq.
      by destruct rr as [a|[]|].
Qed.

(** * Further properties of the code *)

(** ** The WebSocket endpoint *)

Lemma receive_loop_run env websocket w :
  receive_loop env websocket w
  = (match (inbound env websocket).2 with
     | Some e => Raised e
     | None => Pending
     end, w).
Proof.
  unfold receive_loop. generalize (inbound env websocket).2.
  induction ((inbound env websocket).1) as [|f fs IH]; intros closing.
  - by destruct closing.
  - simpl. apply IH.
Qed.

Lemma websocket_endpoint_run env websocket w :
  lock w = false →
  accept_result env (trace w) websocket = Returned tt →
  send_result env (trace w) websocket (init_message (players w))
  = Returned tt →
  let w1 := BuildWorld (players w) (active_connections w ++ [websocket])
              false
              (trace w ++ [Send websocket (init_message (players w))
                             (Returned tt)]) in
  websocket_endpoint env websocket w
  = match (inbound env websocket).2 with
    | Some WebSocketDisconnect =>
        (Returned tt,
         set_active (discard websocket (active_connections w ++ [websocket]))
           w1)
    | Some e => (Raised e, w1)
    | None => (Pending, w1)
    end.
Proof.
  intros Hl Hacc Hinit w1.
  unfold websocket_endpoint, connect, bind, accept, try_except_disconnect.
  rewrite Hacc, async_with_lock_run, Hl. simpl.
  unfold send_json. simpl. rewrite Hinit. simpl.
  rewrite receive_loop_run. fold w1.
  destruct ((inbound env websocket).2) as [[]|]; try done.
  by rewrite disconnect_run.
Qed.

(** X1.  A websocket whose handshake fails is never registered: [connect]
    and [websocket_endpoint] raise what [accept] raised and leave the whole
    state as it was, so nothing is sent either. *)
Theorem failed_handshake_registers_nothing env websocket w e :
  accept_result env (trace w) websocket = Raised e →
  connect env websocket w = (Raised e, w)
  ∧ websocket_endpoint env websocket w = (Raised e, w).
Proof.
  intros Hacc. unfold websocket_endpoint, connect, bind, accept.
  by rewrite Hacc.
Qed.

(** X2.  A client that attaches to a free registry slot, gets its init
    message and then goes away with [WebSocketDisconnect] leaves no trace in
    the registry: the endpoint returns, the registry and the table are as
    before the connection, and the one thing sent is the init message with
    the whole table. *)
Theorem attach_then_disconnect_restores_registry env websocket w :
  lock w = false →
  websocket ∉ active_connections w →
  accept_result env (trace w) websocket = Returned tt →
  send_result env (trace w) websocket (init_message (players w))
  = Returned tt →
  (inbound env websocket).2 = Some WebSocketDisconnect →
  websocket_endpoint env websocket w
  = (Returned tt,
     BuildWorld (players w) (active_connections w) false
       (trace w ++ [Send websocket (init_message (players w))
                      (Returned tt)])).
Proof.
  intros Hl Hnin Hacc Hinit Hclose.
  rewrite websocket_endpoint_run, Hclose by done.
  unfold set_active. simpl. do 2 f_equal.
  induction (active_connections w) as [|c l IH]; simpl.
  - apply discard_cons_eq.
  - apply not_elem_of_cons in Hnin as [Hne Hnin].
    rewrite discard_cons_ne by done. by rewrite IH.
Qed.

(** X3.  [websocket_endpoint] catches [WebSocketDisconnect] only.  When the
    receive loop ends with any other exception, the exception escapes and
    the websocket stays in the registry, to be sent the next broadcast. *)
Theorem other_receive_error_leaves_listener_registered env websocket w e :
  lock w = false →
  accept_result env (trace w) websocket = Returned tt →
  send_result env (trace w) websocket (init_message (players w))
  = Returned tt →
  (inbound env websocket).2 = Some e →
  e ≠ WebSocketDisconnect →
  (websocket_endpoint env websocket w).1 = Raised e
  ∧ active_connections (websocket_endpoint env websocket w).2
    = active_connections w ++ [websocket]
  ∧ ∀ env' message,
      stalled (outcomes env' message (active_connections w ++ [websocket])
                 (trace (websocket_endpoint env websocket w).2
                    ++ [Broadcast message])) = false →
      ∃ r, Send websocket message r
           ∈ trace (broadcast env' message
                      (websocket_endpoint env websocket w).2).2.
Proof.
  intros Hl Hacc Hinit Hclose Hne.
  rewrite websocket_endpoint_run, Hclose by done.
  assert (∀ X Y : Outcome unit * World,
             match e with WebSocketDisconnect => X | _ => Y end = Y) as ->
    by (intros; by destruct e).
  simpl. split; [done|]. split; [done|].
  intros env' message Hst.
  match goal with |- context [broadcast env' message ?w1] =>
    pose proof (broadcast_run env' message w1) as Hrun end.
  simpl in Hrun. rewrite Hrun, Hst. simpl.
  destruct (sends_elem message (active_connections w ++ [websocket])
              (outcomes env' message (active_connections w ++ [websocket])
                 ((trace w ++ [Send websocket (init_message (players w))
                                 (Returned tt)])
                    ++ [Broadcast message])) websocket) as [r Hr].
  - by apply outcomes_complete.
  - apply elem_of_app. right. by apply list_elem_of_singleton.
  - exists r. apply elem_of_app. by right.
Qed.

(** ** The routes on the table *)

Lemma broadcast_never_raises_aux env message w :
  (∀ e, (broadcast env message w).1 ≠ Raised e)
  ∧ players (broadcast env message w).2 = players w.
Proof.
  pose proof (broadcast_run env message w) as Hrun. simpl in Hrun.
  rewrite Hrun. by destruct (lock w); [|destruct (stalled _)].
Qed.


Lemma find_filter_out player_id rows :
  find (has_id player_id) (filter (λ q, has_id player_id q = false) rows)
  = None.
Proof.
  induction rows as [|q rows IH]; [done|].
  destruct (has_id player_id q) eqn:Hq.
  - by rewrite filter_cons_False by congruence.
  - rewrite filter_cons_True by done. simpl. by rewrite Hq.
Qed.

Lemma get_player_run player_id w :
  get_player player_id w
  = (match find (has_id player_id) (players w) with
     | Some p => Returned (player_to_dict p)
     | None => Raised (HTTPException 404 "Player not found")
     end, w).
Proof.
  unfold get_player, bind, session_get.
  by destruct (find (has_id player_id) (players w)).
Qed.


(** X5.  When the body has "name" and "sport" but its "stats" is not an
    object, subscripting it raises [TypeError], not [KeyError]; nothing is
    stored and [broadcast] is not called. *)
Theorem create_player_stats_not_a_dict env data w name sport v :
  data !! "name" = Some name → data !! "sport" = Some sport →
  data !! "stats" = Some v → (∀ d, v ≠ VDict d) →
  create_player env data w = (Raised TypeError, w).
Proof.
  intros Hname Hsport Hstats Hv.
  unfold create_player, create_player_commit, bind, getitem, ret.
  rewrite Hname, Hsport, Hstats. cbn beta iota.
  destruct v; try done. by destruct (Hv d).
Qed.

Lemma has_id_with_stats player_id stats p :
  has_id player_id (with_stats stats p) = has_id player_id p.
Proof. done. Qed.

Lemma update_stats_result env player_id stats w p :
  storable stats = true →
  find (has_id player_id) (players w) = Some p →
  (update_stats env player_id stats w).1
  = Returned (player_to_dict (with_stats (stored stats) p))
  ∨ (update_stats env player_id stats w).1 = Pending.
Proof.
  intros Hs Hp. unfold update_stats, bind.
  rewrite (update_stats_commit_found _ _ _ _ _ Hs Hp).
  match goal with |- context [broadcast env ?msg ?w0] =>
    pose proof (proj1 (broadcast_never_raises_aux env msg w0)) as Hnr;
    destruct (broadcast env msg w0) as [[[]|e|] w1] end; simpl; auto.
  by destruct (Hnr e).
Qed.

(** X6.  After [update_stats] on a player that exists, with statistics
    that can be stored (counts of 64 bits, an average that is not NaN),
    [get_player] on the same id returns the dict that [update_stats]
    returns: the row with the new statistics as stored.  A second
    [update_stats] with statistics that can be stored overrides the first:
    the table is the one that the second update alone would have given.
    A second [update_stats] with statistics that cannot be stored raises
    and leaves the result of the first in place. *)
Theorem update_stats_then_get_player env player_id stats w p :
  find (has_id player_id) (players w) = Some p →
  storable stats = true →
  let w' := (update_stats env player_id stats w).2 in
  get_player player_id w'
  = (Returned (player_to_dict (with_stats (stored stats) p)), w')
  ∧ ((update_stats env player_id stats w).1
     = Returned (player_to_dict (with_stats (stored stats) p))
     ∨ (update_stats env player_id stats w).1 = Pending)
  ∧ (∀ env' stats',
       storable stats' = true →
       players (update_stats env' player_id stats' w').2
       = players (update_stats env' player_id stats' w).2)
  ∧ (∀ env' stats',
       storable stats' = false →
       ∃ e, update_stats env' player_id stats' w' = (Raised e, w')).
Proof.
  intros Hp Hs w'.
  destruct (update_stats_found env player_id stats w p Hs Hp) as [Htable _].
  fold w' in Htable.
  assert (find (has_id player_id) (players w')
          = Some (with_stats (stored stats) p)) as Hp'.
  { rewrite Htable, find_has_id_fmap, Hp by (simpl; eauto using find_has_id).
    simpl. by rewrite (proj2 (find_some _ _ Hp)). }
  split; [|split; [|split]].
  - by rewrite get_player_run, Hp'.
  - by apply update_stats_result.
  - intros env' stats' Hs'.
    rewrite (proj1 (update_stats_found env' player_id stats' w' _ Hs' Hp')).
    rewrite (proj1 (update_stats_found env' player_id stats' w _ Hs' Hp)).
    rewrite Htable, <- list_fmap_compose. apply list_fmap_ext.
    intros i q _. simpl. destruct (has_id player_id q) eqn:Hq.
    + rewrite has_id_with_stats, (proj2 (find_some _ _ Hp)). done.
    + by rewrite Hq.
  - intros env' stats' Hs'.
    destruct (update_stats_unstorable env' player_id stats' w' _ Hs' Hp')
      as (e & _ & He).
    by exists e.
Qed.

(** X7.  After [delete_player] on a player that exists, the id is gone:
    [get_player], [update_stats] and a second [delete_player] on it all
    raise 404 and change nothing.  The rows with another id are all still
    there, in the same order. *)
Theorem delete_player_then_not_found env player_id w p :
  find (has_id player_id) (players w) = Some p →
  let w' := (delete_player env player_id w).2 in
  get_player player_id w'
  = (Raised (HTTPException 404 "Player not found"), w')
  ∧ (∀ env' stats,
       update_stats env' player_id stats w'
       = (Raised (HTTPException 404 "Player not found"), w'))
  ∧ (∀ env', delete_player env' player_id w'
             = (Raised (HTTPException 404 "Player not found"), w'))
  ∧ players w' = filter (λ q, Player.id q ≠ player_id) (players w).
Proof.
  intros Hp w'.
  destruct (delete_player_found env player_id w p Hp) as [Htable _].
  fold w' in Htable.
  assert (find (has_id player_id) (players w') = None) as Hnone
    by (rewrite Htable; apply find_filter_out).
  split; [|split; [|split]].
  - by rewrite get_player_run, Hnone.
  - intros env' stats. unfold update_stats, bind.
    by rewrite update_stats_commit_missing.
  - intros env'. unfold delete_player, bind.
    by rewrite delete_player_commit_missing.
  - rewrite Htable. apply list_filter_iff. intros q. unfold has_id.
    by rewrite bool_decide_eq_false.
Qed.

(** ** Listing and the wire form of a row *)

(** X8.  The dict of a row determines the row: two rows with the same wire
    form are the same row, and the dict shows each column under its key,
    the three statistics under "stats". *)
Theorem player_to_dict_inj p q :
  player_to_dict p = player_to_dict q → p = q.
Proof.
  intros H.
  assert (∀ key, player_to_dict p !! key = player_to_dict q !! key) as Hk
    by (intros; by rewrite H).
  pose proof (Hk "id") as Hid. pose proof (Hk "name") as Hname.
  pose proof (Hk "sport") as Hsport. pose proof (Hk "team") as Hteam.
  pose proof (Hk "age") as Hage. pose proof (Hk "stats") as Hstats.
  assert (∀ r : Player.t,
             player_to_dict r !! "stats"
             = Some (VDict {[ "matches" := Player.matches r;
                              "runs_or_goals" := Player.runs_or_goals r;
                              "average" := Player.average r ]})) as Hs
    by reflexivity.
  rewrite !Hs in Hstats. clear Hs Hk H.
  set (dp := ({[ "matches" := Player.matches p;
                 "runs_or_goals" := Player.runs_or_goals p;
                 "average" := Player.average p ]} : Dict)) in Hstats.
  set (dq := ({[ "matches" := Player.matches q;
                 "runs_or_goals" := Player.runs_or_goals q;
                 "average" := Player.average q ]} : Dict)) in Hstats.
  assert (dp = dq) as Hd by congruence. clear Hstats. subst dp dq.
  assert (∀ (a b c a' b' c' : PyVal),
             ({[ "matches" := a; "runs_or_goals" := b; "average" := c ]}
                : Dict)
             = {[ "matches" := a'; "runs_or_goals" := b'; "average" := c' ]} →
             a = a' ∧ b = b' ∧ c = c') as Hinj.
  { intros a b c a' b' c' Heq.
    pose proof (f_equal (λ d : Dict, d !! "matches") Heq) as Ea.
    pose proof (f_equal (λ d : Dict, d !! "runs_or_goals") Heq) as Eb.
    pose proof (f_equal (λ d : Dict, d !! "average") Heq) as Ec.
    change (Some a = Some a') in Ea. change (Some b = Some b') in Eb.
    change (Some c = Some c') in Ec. by simplify_eq. }
  apply Hinj in Hd as (Hm & Hr & Ha).
  change (Some (VStr (Player.id p)) = Some (VStr (Player.id q))) in Hid.
  change (Some (Player.name p) = Some (Player.name q)) in Hname.
  change (Some (Player.sport p) = Some (Player.sport q)) in Hsport.
  change (Some (Player.team p) = Some (Player.team q)) in Hteam.
  change (Some (Player.age p) = Some (Player.age q)) in Hage.
  destruct p, q. simpl in *. by simplify_eq.
Qed.

Lemma sport_is_spec sport p :
  sport_is sport p = true ↔ Player.sport p = VStr sport.
Proof.
  unfold sport_is. destruct (Player.sport p); try (split; discriminate).
  rewrite bool_decide_eq_true. split; congruence.
Qed.

(** X9.  [list_players] never changes the state.  Without a sport, or with
    the empty string, it returns the dict of every row in table order.  With
    a sport it returns, still in table order, the dicts of exactly the rows
    whose sport is that string. *)
Theorem list_players_filters_by_sport w :
  (∀ sport, (list_players sport w).2 = w)
  ∧ list_players None w = (Returned (player_to_dict <$> players w), w)
  ∧ list_players (Some "") w = list_players None w
  ∧ ∀ a s, ∃ rows,
      list_players (Some (String a s)) w = (Returned (player_to_dict <$> rows), w)
      ∧ rows `sublist_of` players w
      ∧ ∀ p, p ∈ rows ↔ p ∈ players w ∧ Player.sport p = VStr (String a s).
Proof.
  split; [|split; [|split]].
  - by intros [[|a s]|].
  - done.
  - done.
  - intros a s. exists (List.filter (sport_is (String a s)) (players w)).
    split; [done|]. split.
    + induction (players w) as [|p rows IH]; simpl; [done|].
      destruct (sport_is _ p); by constructor.
    + intros p. rewrite !list_elem_of_In, filter_In, sport_is_spec. tauto.
Qed.

(** ** Events in dispatch order *)

Lemma sends_to_sends_notin c message conns outs :
  c ∉ conns → sends_to c (sends message conns outs) = [].
Proof.
  unfold sends. revert outs.
  induction conns as [|c0 conns IH]; intros [|o outs] Hnin; simpl; try done.
  apply not_elem_of_cons in Hnin as [Hne Hnin].
  rewrite decide_False by done. by apply IH.
Qed.

Lemma sends_to_sends_in c message conns outs :
  NoDup conns → length outs = length conns → c ∈ conns →
  ∃ r, sends_to c (sends message conns outs) = [(message, r)]
       ∧ Send c message r ∈ sends message conns outs.
Proof.
  intros Hnd. revert outs.
  induction Hnd as [|c0 conns Hnin Hnd IH]; intros [|o outs] Hlen Hin;
    simpl in *; try done; try by apply elem_of_nil in Hin.
  apply elem_of_cons in Hin as [->|Hin].
  - exists o. rewrite decide_True by done.
    fold (sends message conns outs).
    fold (sends_to c0 (sends message conns outs)).
    rewrite sends_to_sends_notin by done. split; [done|].
    by apply elem_of_cons; left.
  - destruct (IH outs) as (r & Hr & Hr'); [lia|done|].
    exists r. rewrite decide_False by (intros ->; done).
    split; [exact Hr|]. by apply elem_of_cons; right.
Qed.

Lemma stalled_elem c message conns outs :
  Send c message Pending ∈ sends message conns outs → stalled outs = true.
Proof.
  unfold sends, stalled. revert outs.
  induction conns as [|c0 conns IH]; intros [|o outs]; simpl;
    try by intros ?%elem_of_nil.
  intros [[= -> <-]|Hin]%elem_of_cons; [done|].
  rewrite (IH _ Hin). apply orb_true_r.
Qed.

(** One pass on a registry without duplicates, seen from each channel. *)
Lemma broadcast_pass_sends env message w :
  lock w = false → NoDup (active_connections w) →
  stalled (outcomes env message (active_connections w)
             (trace w ++ [Broadcast message])) = false →
  let w' := (broadcast env message w).2 in
  lock w' = false ∧ NoDup (active_connections w')
  ∧ (∀ c, c ∈ active_connections w' → c ∈ active_connections w)
  ∧ (∀ c, c ∈ active_connections w' →
          sends_to c (trace w')
          = sends_to c (trace w) ++ [(message, Returned tt)])
  ∧ (∀ c, c ∈ active_connections w → c ∉ active_connections w' →
          ∃ e, sends_to c (trace w')
               = sends_to c (trace w) ++ [(message, Raised e)])
  ∧ (∀ c, c ∉ active_connections w →
          sends_to c (trace w') = sends_to c (trace w)).
Proof.
  intros Hl Hnd Hst w'. subst w'.
  pose proof (broadcast_run env message w) as Hrun. simpl in Hrun.
  rewrite Hrun, Hl, Hst. simpl. clear Hrun.
  set (conns := active_connections w) in *.
  set (outs := outcomes env message conns (trace w ++ [Broadcast message]))
    in *.
  pose proof (outcomes_complete _ _ _ _ Hst) as Hlen. fold outs in Hlen.
  destruct (pruned_registry message conns outs Hnd) as [Hout Hkeep].
  assert (∀ c, sends_to c ((trace w ++ [Broadcast message])
                             ++ sends message conns outs)
               = sends_to c (trace w) ++ sends_to c (sends message conns outs))
    as Hto.
  { intros c. rewrite !sends_to_app. simpl. by rewrite app_nil_r. }
  split; [done|]. split; [by apply discard_all_NoDup|].
  split; [intros c; apply discard_all_subseteq|].
  split; [|split].
  - intros c Hc. rewrite Hto. f_equal.
    destruct (sends_to_sends_in c message conns outs Hnd Hlen) as (r & -> & Hr).
    { by apply (discard_all_subseteq (failed conns outs)). }
    destruct r as [[]|e|]; [done| |].
    + by destruct (Hout c e Hr).
    + apply stalled_elem in Hr. congruence.
  - intros c Hc Hgone. rewrite Hto.
    destruct (sends_to_sends_in c message conns outs Hnd Hlen Hc)
      as (r & Hsent & Hr).
    rewrite Hsent. destruct r as [[]|e|]; [|by exists e|].
    + destruct Hgone. apply Hkeep; [done|]. intros e He.
      apply sends_to_elem in He. rewrite Hsent in He.
      apply list_elem_of_singleton in He. congruence.
    + apply stalled_elem in Hr. congruence.
  - intros c Hc. rewrite Hto, sends_to_sends_notin by done. apply app_nil_r.
Qed.

(** X10.  Events broadcast one after the other, on a registry without
    duplicates and a transport whose sends all complete: a listener that is
    still registered at the end was sent every event once, in dispatch
    order, and each send returned; a listener that was removed on the way
    was sent the events up to the one whose send raised, and nothing after
    it; a channel that was not registered was sent nothing. *)
Theorem broadcasts_reach_listeners_in_order env messages w :
  lock w = false → NoDup (active_connections w) →
  (∀ tr c message, send_result env tr c message ≠ Pending) →
  let w' := foldl (λ w0 message, (broadcast env message w0).2) w messages in
  (lock w' = false ∧ NoDup (active_connections w')
   ∧ ∀ c, c ∈ active_connections w' → c ∈ active_connections w)
  ∧ (∀ c, c ∈ active_connections w' →
          sends_to c (trace w')
          = sends_to c (trace w) ++ ((λ message, (message, Returned tt))
                                       <$> messages))
  ∧ (∀ c, c ∈ active_connections w → c ∉ active_connections w' →
          ∃ k message e,
            messages !! k = Some message
            ∧ sends_to c (trace w')
              = sends_to c (trace w)
                  ++ ((λ message, (message, Returned tt)) <$> take k messages)
                  ++ [(message, Raised e)])
  ∧ (∀ c, c ∉ active_connections w →
          sends_to c (trace w') = sends_to c (trace w)).
Proof.
  intros Hl Hnd Hnp. revert w Hl Hnd.
  induction messages as [|message messages IH]; intros w Hl Hnd; simpl.
  - split; [done|]. split; [|split]; [|done..].
    intros. by rewrite app_nil_r.
  - assert (stalled (outcomes env message (active_connections w)
                       (trace w ++ [Broadcast message])) = false) as Hst
      by (apply outcomes_not_stalled; intros; apply Hnp).
    destruct (broadcast_pass_sends env message w Hl Hnd Hst)
      as (Hl1 & Hnd1 & Hsub1 & Hkept1 & Hgone1 & Hout1).
    destruct (IH _ Hl1 Hnd1) as ((Hl2 & Hnd2 & Hsub2) & Hkept & Hgone & Hout).
    split; [auto|]. split; [|split].
    + intros c Hc. rewrite (Hkept c Hc), (Hkept1 c (Hsub2 c Hc)).
      by rewrite <- app_assoc.
    + intros c Hc Hnc.
      destruct (decide (c ∈ active_connections (broadcast env message w).2))
        as [Hc1|Hc1].
      * destruct (Hgone c Hc1 Hnc) as (k & m' & e & Hk & Hsent).
        exists (S k), m', e. split; [done|].
        rewrite Hsent, (Hkept1 c Hc1). simpl. by rewrite <- app_assoc.
      * destruct (Hgone1 c Hc Hc1) as (e & Hsent).
        exists 0, message, e. split; [done|].
        by rewrite (Hout c Hc1), Hsent.
    + intros c Hc. rewrite (Hout c), (Hout1 c Hc); [done|]. auto.
Qed.

Lemma broadcasts_reach_listeners_in_order_witness :
  let w' := foldl (λ w0 message, (broadcast (env_dead 1) message w0).2)
              sample_two [player_deleted "p"; player_deleted "q"] in
  lock sample_two = false
  ∧ NoDup (active_connections sample_two)
  ∧ (∀ tr c message, send_result (env_dead 1) tr c message ≠ Pending)
  ∧ sends_to 2 (trace w')
    = [(player_deleted "p", Returned tt); (player_deleted "q", Returned tt)]
  ∧ sends_to 1 (trace w') = [(player_deleted "p", Raised RuntimeError)].
Proof.
  assert (lock sample_two = false) as Hl by reflexivity.
  assert (NoDup (active_connections sample_two)) as Hnd
    by (apply (bool_decide_unpack (NoDup [1; 2])); vm_compute; exact I).
  assert (∀ tr c message, send_result (env_dead 1) tr c message ≠ Pending)
    as Hnp.
  { intros tr c message. simpl. destruct (decide (c = 1)); discriminate. }
  pose proof (broadcasts_reach_listeners_in_order (env_dead 1)
                [player_deleted "p"; player_deleted "q"] sample_two
                Hl Hnd Hnp) as (_ & Hkept & _).
  split; [exact Hl|]. split; [exact Hnd|]. split; [exact Hnp|].
  split; [|reflexivity].
  apply (Hkept 2). vm_compute. apply elem_of_cons. by left.
Defined.

(** ** Seeding at startup *)

(** X11.  [startup] seeds an empty table only.  On a table with at least
    one row it changes nothing.  On an empty table (the two generated ids
    being different) it commits the two sample rows, in one commit and
    without any broadcast, so that a second [startup] changes nothing;
    afterwards the cricket filter lists the first row only and each row is
    found under its id. *)
Theorem startup_seeds_empty_table_only id_a id_b w :
  (players w ≠ [] → startup id_a id_b w = (Returned tt, w))
  ∧ (players w = [] → id_a ≠ id_b →
     let w' := (startup id_a id_b w).2 in
     startup id_a id_b w
     = (Returned tt,
        BuildWorld [seed_cricket id_a; seed_football id_b]
          (active_connections w) (lock w)
          (trace w ++ [Commit [seed_cricket id_a; seed_football id_b]]))
     ∧ (∀ id_c id_d, startup id_c id_d w' = (Returned tt, w'))
     ∧ list_players (Some "cricket") w'
       = (Returned [player_to_dict (seed_cricket id_a)], w')
     ∧ get_player id_a w' = (Returned (player_to_dict (seed_cricket id_a)), w')
     ∧ get_player id_b w'
       = (Returned (player_to_dict (seed_football id_b)), w')).
Proof.
  split.
  - intros Hne. unfold startup, bind, select_all. simpl.
    by destruct (players w).
  - intros Hempty Hab w'.
    assert (startup id_a id_b w
            = (Returned tt,
               BuildWorld [seed_cricket id_a; seed_football id_b]
                 (active_connections w) (lock w)
                 (trace w ++ [Commit [seed_cricket id_a; seed_football id_b]])))
      as Hrun.
    { unfold startup, bind, select_all. simpl. rewrite Hempty.
      by rewrite bool_decide_eq_false_2. }
    subst w'. rewrite Hrun. simpl. split; [done|]. split; [done|].
    split; [done|].
    rewrite !get_player_run. simpl. unfold has_id. simpl.
    rewrite bool_decide_eq_true_2 by done. split; [done|].
    rewrite bool_decide_eq_false_2 by done.
    by rewrite bool_decide_eq_true_2.
Qed.

Lemma startup_seeds_empty_table_only_witness :
  players sample_two = [] ∧ "a" ≠ "b"
  ∧ players (startup "a" "b" sample_two).2
    = [seed_cricket "a"; seed_football "b"]
  ∧ startup "c" "d" (startup "a" "b" sample_two).2
    = (Returned tt, (startup "a" "b" sample_two).2).
Proof.
  assert (players sample_two = []) as He by reflexivity.
  assert ("a" ≠ "b") as Hab by discriminate.
  destruct (proj2 (startup_seeds_empty_table_only "a" "b" sample_two) He Hab)
    as (Hrun & Hagain & _).
  split; [exact He|]. split; [exact Hab|]. split; [by rewrite Hrun|].
  apply Hagain.
Defined.

(** ** The history of the event loop *)

Lemma table_after_snoc table tr e :
  table_after table (tr ++ [e])
  = match e with Commit t => t | _ => table_after table tr end.
Proof. unfold table_after. rewrite foldl_app. by destruct e. Qed.

Lemma table_after_quiet_send table tr c message r :
  table_after table (tr ++ [Send c message r]) = table_after table tr.
Proof. by rewrite table_after_snoc. Qed.

(** A handler up to its call of [broadcast]: it fails and leaves the state
    as it was, or it commits a change and returns the event of it. *)
Lemma handler_commit_cases env req w :
  (∃ e, handler_commit env req w = (Raised e, w))
  ∨ ∃ message t,
      announces message (players w) t
      ∧ handler_commit env req w
        = (Returned message,
           BuildWorld t (active_connections w) (lock w)
             (trace w ++ [Commit t])).
Proof.
  destruct req as [data|player_id stats|player_id]; simpl; unfold bind.
  - destruct (create_player_commit_cases env data w)
      as [[e ->]|(p & Hfresh & ->)]; [left; by eexists|].
    right. eexists _, _. split; [|reflexivity]. left. eauto.
  - destruct (find (has_id player_id) (players w)) as [p|] eqn:Hp.
    + destruct (storable stats) eqn:Hs.
      * rewrite (update_stats_commit_found _ _ _ _ _ Hs Hp). right.
        eexists _, _. split; [|reflexivity]. right. left. eauto 10.
      * destruct (update_stats_commit_unstorable env _ _ _ _ Hs Hp)
          as (e & _ & ->). left. by eexists.
    + rewrite (update_stats_commit_missing _ _ _ _ Hp). left. by eexists.
  - destruct (find (has_id player_id) (players w)) as [p|] eqn:Hp.
    + rewrite (delete_player_commit_found _ _ _ Hp). right.
      eexists _, _. split; [|reflexivity]. right. right. eauto 10.
    + rewrite (delete_player_commit_missing _ _ Hp). left. by eexists.
Qed.

Lemma start_handler_cases env req w at_ w' :
  start_handler env req w = (Returned at_, w') →
  (w' = w ∧ ∃ e, at_ = HandlerEnded (Raised e))
  ∨ ∃ message t,
      announces message (players w) t
      ∧ at_ = Locking message
      ∧ w' = BuildWorld t (active_connections w) (lock w)
               (trace w ++ [Commit t; Broadcast message]).
Proof.
  unfold start_handler, bind, attempt. simpl.
  destruct (handler_commit_cases env req w) as [[e ->]|(m & t & Hm & ->)];
    simpl; unfold emit, ret; intros [= <- <-].
  - left. eauto.
  - right. exists m, t. rewrite <- app_assoc. eauto.
Qed.

Lemma announces_is_event message before after :
  announces message before after → is_event message.
Proof.
  intros [(p & -> & _)|[(player_id & stats & p & -> & _)
                       |(player_id & p & -> & _)]];
    auto using is_event_player_created, is_event_stats_updated,
               is_event_player_deleted.
Qed.

Lemma task_announced_mono tr evs t :
  task_announced tr t → task_announced (tr ++ evs) t.
Proof.
  destruct t as [ws at_|[m|m snapshot k rm|r]]; simpl; try done;
    intros [? ?]; (split; [done|]); apply elem_of_app; by left.
Qed.

Lemma Hist_initial table : Hist table (initial table).
Proof.
  split; simpl; [constructor|done|].
  intros i t Hi. by rewrite lookup_nil in Hi.
Qed.

Lemma Hist_step table i s s' :
  Inv s → Hist table s → step i s s' → Hist table s'.
Proof.
  intros Hinv [Hh Ht Hk] Hstep.
  destruct Hstep as [s ws Hfresh|s env req at_ w' Hstart|
                     s i env t t' w' Hi Hres].
  - split; simpl; [done..|].
    intros j t [[_ Hj]|(_ & <-)]%lookup_snoc_Some; [by eapply Hk|done].
  - apply start_handler_cases in Hstart
      as [(-> & e & ->)|(m & t & Hm & -> & ->)].
    + split; simpl; [done..|].
      intros j t [[_ Hj]|(_ & <-)]%lookup_snoc_Some; [by eapply Hk|done].
    + split; simpl.
      * apply history_mutation; [done|]. by rewrite <- Ht.
      * unfold table_after. rewrite foldl_app. reflexivity.
      * intros j t0 [[_ Hj]|(_ & <-)]%lookup_snoc_Some.
        -- apply task_announced_mono. by eapply Hk.
        -- simpl. split; [by eapply announces_is_event|].
           apply elem_of_app. right. apply elem_of_cons. right.
           by apply elem_of_cons; left.
  - pose proof (Hk _ _ Hi) as Hki.
    apply resume_task_step in Hres.
    assert (∀ w1 t1,
               history table (trace w1) →
               players w1 = table_after table (trace w1) →
               (∀ j t0, j ≠ i → tasks s !! j = Some t0 →
                        task_announced (trace w1) t0) →
               task_announced (trace w1) t1 →
               Hist table (BuildSystem w1 (<[i:=t1]> (tasks s)))) as Hput.
    { intros w1 t1 H1 H2 H3 H4. split; simpl; [done..|].
      intros j t0 [(-> & <- & _)|[Hne Hj]]%list_lookup_insert_Some; eauto. }
    inversion Hres; subst; simpl in *.
    + apply Hput; [done..| |by destruct H as [->|[r ->]]].
      intros; by eapply Hk.
    + apply Hput; simpl.
      * rewrite Ht. by apply history_init.
      * by rewrite table_after_quiet_send.
      * intros j t0 _ Hj. apply task_announced_mono. by eapply Hk.
      * by destruct r.
    + apply Hput; [done..| |by destruct H as [->|[r ->]]].
      intros; by eapply Hk.
    + apply Hput; simpl; [done..| |done]. intros; by eapply Hk.
    + apply Hput; simpl; [done..| |done]. intros; by eapply Hk.
    + destruct Hki as [Hev Hb]. apply Hput; simpl.
      * by apply history_event.
      * by rewrite table_after_quiet_send.
      * intros j t0 _ Hj. apply task_announced_mono. by eapply Hk.
      * destruct r; simpl; try done; (split; [done|]);
          apply elem_of_app; by left.
    + apply Hput; simpl; [done..| |done]. intros; by eapply Hk.
Qed.

Lemma Hist_steps table s :
  steps (initial table) s → Inv s ∧ Hist table s.
Proof.
  intros Hsteps. apply rtc_nsteps in Hsteps as [n Hn].
  revert s Hn. induction n as [|n IH]; intros s Hn.
  - inversion Hn; subst. split; [apply Inv_initial|apply Hist_initial].
  - apply nsteps_inv_r in Hn as (s1 & Hn & i & Hstep).
    destruct (IH _ Hn) as [Hinv Hhist].
    split; [by eapply Inv_step|by eapply Hist_step].
Qed.

Lemma app_snoc_split {A} (tr pre post : list A) e x :
  tr ++ [e] = pre ++ x :: post →
  (post = [] ∧ pre = tr ∧ x = e)
  ∨ ∃ post', post = post' ++ [e] ∧ tr = pre ++ x :: post'.
Proof.
  destruct post as [|y post' _] using rev_ind.
  - intros [-> ->]%app_inj_tail. by left.
  - rewrite app_comm_cons, app_assoc. intros [-> ->]%app_inj_tail.
    right. by eexists.
Qed.

(** Every broadcast entry of a history comes right after the commit of the
    change that its event tells. *)
Lemma history_broadcasts table tr :
  history table tr →
  ∀ pre message post,
    tr = pre ++ Broadcast message :: post →
    ∃ pre1 t, pre = pre1 ++ [Commit t]
              ∧ announces message (table_after table pre1) t.
Proof.
  induction 1 as [|tr t m0 Hh IH Hm|tr ws r Hh IH|tr ws m0 r Hh IH Hev Hb];
    intros pre message post Heq.
  - by destruct pre.
  - change [Commit t; Broadcast m0] with ([Commit t] ++ [Broadcast m0]) in Heq.
    rewrite app_assoc in Heq.
    apply app_snoc_split in Heq as [(-> & -> & [= ->])|(post1 & -> & Heq)];
      [eauto|].
    apply app_snoc_split in Heq as [(_ & _ & ?)|(post2 & -> & ->)]; [done|].
    eauto.
  - apply app_snoc_split in Heq as [(_ & _ & ?)|(post1 & -> & ->)]; [done|].
    eauto.
  - apply app_snoc_split in Heq as [(_ & _ & ?)|(post1 & -> & ->)]; [done|].
    eauto.
Qed.

Lemma history_commits table tr :
  history table tr →
  ∀ pre t post,
    tr = pre ++ Commit t :: post →
    ∃ message post', post = Broadcast message :: post'
                     ∧ announces message (table_after table pre) t.
Proof.
  induction 1 as [|tr t0 m0 Hh IH Hm|tr ws r Hh IH|tr ws m0 r Hh IH Hev Hb];
    intros pre t post Heq.
  - by destruct pre.
  - change [Commit t0; Broadcast m0] with ([Commit t0] ++ [Broadcast m0])
      in Heq.
    rewrite app_assoc in Heq.
    apply app_snoc_split in Heq as [(_ & _ & ?)|(post1 & -> & Heq)]; [done|].
    apply app_snoc_split in Heq as [(-> & -> & [= ->])|(post2 & -> & ->)].
    + by exists m0, [].
    + destruct (IH _ _ _ eq_refl) as (m & post' & -> & Hann).
      exists m, (post' ++ [Commit t0; Broadcast m0]). split; [|done].
      by rewrite <- !app_assoc.
  - apply app_snoc_split in Heq as [(_ & _ & ?)|(post1 & -> & ->)]; [done|].
    destruct (IH _ _ _ eq_refl) as (m & post' & -> & Hann).
    exists m, (post' ++ [Send ws (init_message
                                    (table_after table
                                       (pre ++ Commit t
                                            :: Broadcast m :: post'))) r]).
    by split.
  - apply app_snoc_split in Heq as [(_ & _ & ?)|(post1 & -> & ->)]; [done|].
    destruct (IH _ _ _ eq_refl) as (m & post' & -> & Hann).
    exists m, (post' ++ [Send ws m0 r]). by split.
Qed.

Lemma history_sends table tr :
  history table tr →
  ∀ pre c message r post,
    tr = pre ++ Send c message r :: post →
    (is_init message ∧ message = init_message (table_after table pre))
    ∨ (is_event message ∧ Broadcast message ∈ pre).
Proof.
  induction 1 as [|tr t0 m0 Hh IH Hm|tr ws r0 Hh IH|tr ws m0 r0 Hh IH Hev Hb];
    intros pre c message r post Heq.
  - by destruct pre.
  - change [Commit t0; Broadcast m0] with ([Commit t0] ++ [Broadcast m0])
      in Heq.
    rewrite app_assoc in Heq.
    apply app_snoc_split in Heq as [(_ & _ & ?)|(post1 & -> & Heq)]; [done|].
    apply app_snoc_split in Heq as [(_ & _ & ?)|(post2 & -> & ->)]; [done|].
    eauto.
  - apply app_snoc_split in Heq
      as [(-> & -> & [= -> -> ->])|(post1 & -> & ->)]; [|eauto].
    left. split; [apply is_init_init_message|done].
  - apply app_snoc_split in Heq
      as [(-> & -> & [= -> -> ->])|(post1 & -> & ->)]; [|eauto].
    by right.
Qed.

Lemma steps_history table s :
  steps (initial table) s →
  history table (trace (world s))
  ∧ players (world s) = table_after table (trace (world s)).
Proof. intros [_ [? ? _]]%Hist_steps. by split. Qed.

(** X12.  In every run of the server, the init message a client is sent
    carries the table as it is after the last commit before that send (the
    table the server started on when there was none): a new listener never
    starts from a table that is older than the events it will get. *)
Theorem init_message_carries_committed_table table s pre c message r post :
  steps (initial table) s →
  trace (world s) = pre ++ Send c message r :: post →
  is_init message →
  message = init_message (table_after table pre).
Proof.
  intros [Hh _]%steps_history Htr Hinit.
  destruct (history_sends _ _ Hh _ _ _ _ _ Htr) as [[_ ->]|[Hev _]]; [done|].
  by destruct (is_event_not_init _ Hev).
Qed.

Lemma init_message_carries_committed_table_witness :
  let tr := trace (world sample_created_then_attached) in
  steps (initial []) sample_created_then_attached
  ∧ tr = take 2 tr ++ Send 1 (init_message [sample_player]) (Returned tt)
           :: drop 3 tr
  ∧ is_init (init_message [sample_player])
  ∧ init_message [sample_player]
    = init_message (table_after [] (take 2 tr)).
Proof.
  intros tr.
  assert (steps (initial []) sample_created_then_attached) as Hsteps.
  { apply (schedule_steps create_then_attach). vm_compute. reflexivity. }
  assert (tr = take 2 tr ++ Send 1 (init_message [sample_player]) (Returned tt)
                 :: drop 3 tr) as Htr by (vm_compute; reflexivity).
  assert (is_init (init_message [sample_player])) as Hinit by reflexivity.
  split; [exact Hsteps|]. split; [exact Htr|]. split; [exact Hinit|].
  exact (init_message_carries_committed_table [] sample_created_then_attached
           (take 2 tr) 1 (init_message [sample_player]) (Returned tt)
           (drop 3 tr) Hsteps Htr Hinit).
Defined.

(** X13.  In every run of the server, an event is sent to a listener only
    after the change it tells was committed: before the send, the history
    holds the commit of that change with the broadcast entry of the event
    right after it. *)
Theorem event_sent_after_its_commit table s pre c message r post :
  steps (initial table) s →
  trace (world s) = pre ++ Send c message r :: post →
  is_event message →
  ∃ pre1 t pre2,
    pre = pre1 ++ Commit t :: Broadcast message :: pre2
    ∧ announces message (table_after table pre1) t.
Proof.
  intros [Hh _]%steps_history Htr Hev.
  destruct (history_sends _ _ Hh _ _ _ _ _ Htr) as [[Hinit _]|[_ Hb]].
  { by destruct (is_event_not_init _ Hev). }
  apply list_elem_of_split in Hb as (l1 & l2 & ->).
  rewrite <- app_assoc in Htr. simpl in Htr.
  destruct (history_broadcasts _ _ Hh _ _ _ Htr) as (pre1 & t & -> & Hann).
  exists pre1, t, l2. by rewrite <- app_assoc.
Qed.

Lemma event_sent_after_its_commit_witness :
  let tr := trace (world sample_pruned) in
  steps (initial []) sample_pruned
  ∧ tr = take 5 tr ++ Send 2 (player_created sample_player) (Returned tt)
           :: drop 6 tr
  ∧ is_event (player_created sample_player)
  ∧ ∃ pre1 t pre2,
      take 5 tr
      = pre1 ++ Commit t :: Broadcast (player_created sample_player) :: pre2
      ∧ announces (player_created sample_player) (table_after [] pre1) t.
Proof.
  intros tr.
  assert (steps (initial []) sample_pruned) as Hsteps.
  { etrans.
    { apply (schedule_steps attach_two). vm_compute. reflexivity. }
    etrans.
    { apply (schedule_steps pass_with_failure). vm_compute. reflexivity. }
    apply (schedule_steps [Run (env_dead 1) 3]). vm_compute. reflexivity. }
  assert (tr = take 5 tr
                 ++ Send 2 (player_created sample_player) (Returned tt)
                 :: drop 6 tr) as Htr by (vm_compute; reflexivity).
  assert (is_event (player_created sample_player)) as Hev
    by (left; reflexivity).
  split; [exact Hsteps|]. split; [exact Htr|]. split; [exact Hev|].
  exact (event_sent_after_its_commit [] sample_pruned (take 5 tr) 2
           (player_created sample_player) (Returned tt) (drop 6 tr)
           Hsteps Htr Hev).
Defined.

(** X14.  In every run of the server, the table is the one of the last
    commit, and every commit is followed at once by the broadcast entry of
    an event that tells its change: one row added under a new id, the three
    statistics of the row of an id replaced, or the row of an id deleted.
    No task runs between a commit and the call of [broadcast]. *)
Theorem every_commit_is_announced table s :
  steps (initial table) s →
  players (world s) = table_after table (trace (world s))
  ∧ ∀ pre t post,
      trace (world s) = pre ++ Commit t :: post →
      ∃ message post',
        post = Broadcast message :: post'
        ∧ announces message (table_after table pre) t.
Proof.
  intros [Hh Ht]%steps_history. split; [done|].
  intros pre t post Htr. by eapply history_commits.
Qed.

Lemma every_commit_is_announced_witness :
  let tr := trace (world sample_created_then_attached) in
  steps (initial []) sample_created_then_attached
  ∧ players (world sample_created_then_attached) = [sample_player]
  ∧ tr = [] ++ Commit [sample_player] :: drop 1 tr
  ∧ ∃ message post',
      drop 1 tr = Broadcast message :: post'
      ∧ announces message (table_after [] []) [sample_player].
Proof.
  intros tr.
  assert (steps (initial []) sample_created_then_attached) as Hsteps.
  { apply (schedule_steps create_then_attach). vm_compute. reflexivity. }
  assert (tr = [] ++ Commit [sample_player] :: drop 1 tr) as Htr
    by (vm_compute; reflexivity).
  split; [exact Hsteps|]. split; [vm_compute; reflexivity|].
  split; [exact Htr|].
  exact (proj2 (every_commit_is_announced [] sample_created_then_attached
                  Hsteps) [] [sample_player] (drop 1 tr) Htr).
Defined.

(** ** One pass at a time *)

(** X15.  In every reachable state at most one task is inside the delivery
    loop of [broadcast].  While a task is there, a step of any other task
    leaves the registry as it is, keeps the lock held and sends nothing:
    no listener is added or removed in the middle of a pass and no init
    message or event of another pass comes between its sends. *)
Theorem pass_excludes_other_tasks s :
  reachable s →
  (∀ i j t1 t2,
     tasks s !! i = Some t1 → tasks s !! j = Some t2 →
     is_sending t1 → is_sending t2 → i = j)
  ∧ ∀ i j s' message snapshot k to_remove,
      tasks s !! i = Some (Handler (Sending message snapshot k to_remove)) →
      step j s s' → j ≠ i →
      tasks s' !! i = Some (Handler (Sending message snapshot k to_remove))
      ∧ active_connections (world s') = active_connections (world s)
      ∧ lock (world s') = true
      ∧ only_sends (trace (world s')) = only_sends (trace (world s)).
Proof.
  intros Hinv%reachable_Inv. split; [apply Hinv|].
  intros i j s' message snapshot k to_remove Hi Hstep Hne.
  destruct (inv_task _ Hinv _ _ Hi) as (Hl & _).
  pose proof (lookup_lt_Some _ _ _ Hi) as Hlt.
  destruct Hstep as [s ws Hfresh|s env req at_ w' Hstart|
                     s j env t t' w' Hj Hres]; simpl.
  - by rewrite lookup_app_l.
  - apply start_handler_quiet in Hstart as [Hq _].
    rewrite lookup_app_l by done. rewrite (only_sends_quiet _ _ Hq).
    destruct Hq as (-> & -> & _). done.
  - rewrite list_lookup_insert_ne by done.
    apply resume_task_step in Hres.
    inversion Hres; subst; simpl in *; try done; try congruence.
    + destruct Hne.
      by apply (inv_one_pass _ Hinv _ _ _ _ Hj Hi).
    + destruct Hne.
      by apply (inv_one_pass _ Hinv _ _ _ _ Hj Hi).
Qed.

Lemma pass_excludes_other_tasks_witness :
  let s' := BuildSystem (world sample_loop_done)
              (tasks sample_loop_done ++ [Endpoint 3 Accepting]) in
  reachable sample_loop_done
  ∧ tasks sample_loop_done !! 3
    = Some (Handler (Sending (player_created sample_player) [1; 2] 2 [1]))
  ∧ step (length (tasks sample_loop_done)) sample_loop_done s'
  ∧ length (tasks sample_loop_done) ≠ 3
  ∧ tasks s' !! 3
    = Some (Handler (Sending (player_created sample_player) [1; 2] 2 [1]))
  ∧ active_connections (world s') = [1; 2]
  ∧ lock (world s') = true.
Proof.
  intros s'.
  assert (reachable sample_loop_done) as Hreach.
  { exists []. etrans.
    { apply (schedule_steps attach_two). vm_compute. reflexivity. }
    apply (schedule_steps pass_with_failure). vm_compute. reflexivity. }
  assert (tasks sample_loop_done !! 3
          = Some (Handler (Sending (player_created sample_player)
                             [1; 2] 2 [1]))) as Hi
    by (vm_compute; reflexivity).
  assert (step (length (tasks sample_loop_done)) sample_loop_done s') as Hstep.
  { apply step_open. intros [|[|[|[|[|i]]]]] at_; vm_compute; discriminate. }
  assert (length (tasks sample_loop_done) ≠ 3) as Hne
    by (vm_compute; discriminate).
  destruct (proj2 (pass_excludes_other_tasks sample_loop_done Hreach)
              3 _ s' _ _ _ _ Hi Hstep Hne) as (H1 & H2 & H3 & _).
  split; [exact Hreach|]. split; [exact Hi|]. split; [exact Hstep|].
  split; [exact Hne|]. split; [exact H1|]. split; [exact H2|exact H3].
Defined.

(** ** Instances of the further properties *)

Lemma failed_handshake_registers_nothing_witness :
  accept_result env_refused (trace sample_two) 3 = Raised RuntimeError
  ∧ connect env_refused 3 sample_two = (Raised RuntimeError, sample_two)
  ∧ websocket_endpoint env_refused 3 sample_two
    = (Raised RuntimeError, sample_two).
Proof.
  assert (accept_result env_refused (trace sample_two) 3
          = Raised RuntimeError) as Hacc by reflexivity.
  split; [exact Hacc|].
  exact (failed_handshake_registers_nothing env_refused 3 sample_two
           RuntimeError Hacc).
Defined.

Lemma attach_then_disconnect_restores_registry_witness :
  lock sample_two = false
  ∧ (3 ∉ active_connections sample_two)
  ∧ accept_result env_leaving (trace sample_two) 3 = Returned tt
  ∧ send_result env_leaving (trace sample_two) 3
      (init_message (players sample_two)) = Returned tt
  ∧ (inbound env_leaving 3).2 = Some WebSocketDisconnect
  ∧ websocket_endpoint env_leaving 3 sample_two
    = (Returned tt,
       BuildWorld [] [1; 2] false
         [Send 3 (init_message []) (Returned tt)]).
Proof.
  assert (lock sample_two = false) as Hl by reflexivity.
  assert (3 ∉ active_connections sample_two) as Hnin
    by (apply (bool_decide_unpack (3 ∉ [1; 2])); vm_compute; exact I).
  assert (accept_result env_leaving (trace sample_two) 3 = Returned tt)
    as Hacc by reflexivity.
  assert (send_result env_leaving (trace sample_two) 3
            (init_message (players sample_two)) = Returned tt)
    as Hsend by reflexivity.
  assert ((inbound env_leaving 3).2 = Some WebSocketDisconnect)
    as Hin by reflexivity.
  split; [exact Hl|]. split; [exact Hnin|]. split; [exact Hacc|].
  split; [exact Hsend|]. split; [exact Hin|].
  exact (attach_then_disconnect_restores_registry env_leaving 3 sample_two
           Hl Hnin Hacc Hsend Hin).
Defined.

Lemma other_receive_error_leaves_listener_registered_witness :
  lock sample_two = false
  ∧ accept_result env_broken (trace sample_two) 3 = Returned tt
  ∧ send_result env_broken (trace sample_two) 3
      (init_message (players sample_two)) = Returned tt
  ∧ (inbound env_broken 3).2 = Some RuntimeError
  ∧ RuntimeError ≠ WebSocketDisconnect
  ∧ (websocket_endpoint env_broken 3 sample_two).1 = Raised RuntimeError
  ∧ active_connections (websocket_endpoint env_broken 3 sample_two).2
    = [1; 2; 3].
Proof.
  assert (lock sample_two = false) as Hl by reflexivity.
  assert (accept_result env_broken (trace sample_two) 3 = Returned tt)
    as Hacc by reflexivity.
  assert (send_result env_broken (trace sample_two) 3
            (init_message (players sample_two)) = Returned tt)
    as Hsend by reflexivity.
  assert ((inbound env_broken 3).2 = Some RuntimeError) as Hin
    by reflexivity.
  assert (RuntimeError ≠ WebSocketDisconnect) as Hne by discriminate.
  destruct (other_receive_error_leaves_listener_registered env_broken 3
              sample_two RuntimeError Hl Hacc Hsend Hin Hne)
    as (Hres & Hact & _).
  split; [exact Hl|]. split; [exact Hacc|]. split; [exact Hsend|].
  split; [exact Hin|]. split; [exact Hne|]. split; [exact Hres|exact Hact].
Defined.


Lemma create_player_stats_not_a_dict_witness :
  sample_bad_body !! "name" = Some (VStr "Virat Kohli")
  ∧ sample_bad_body !! "sport" = Some (VStr "cricket")
  ∧ sample_bad_body !! "stats" = Some (VInt 260)
  ∧ (∀ d, VInt 260 ≠ VDict d)
  ∧ create_player env_ok sample_bad_body sample_two
    = (Raised TypeError, sample_two).
Proof.
  assert (sample_bad_body !! "name" = Some (VStr "Virat Kohli")) as H1
    by reflexivity.
  assert (sample_bad_body !! "sport" = Some (VStr "cricket")) as H2
    by reflexivity.
  assert (sample_bad_body !! "stats" = Some (VInt 260)) as H3
    by reflexivity.
  assert (∀ d, VInt 260 ≠ VDict d) as H4 by discriminate.
  split; [exact H1|]. split; [exact H2|]. split; [exact H3|].
  split; [exact H4|].
  exact (create_player_stats_not_a_dict env_ok sample_bad_body sample_two
           _ _ _ H1 H2 H3 H4).
Defined.

Lemma update_stats_then_get_player_witness :
  find (has_id (Player.id sample_player)) (players (world sample_pruned))
  = Some sample_player
  ∧ storable sample_stats = true
  ∧ get_player (Player.id sample_player)
      (update_stats env_ok (Player.id sample_player) sample_stats
         (world sample_pruned)).2
    = (Returned (player_to_dict (with_stats sample_stats sample_player)),
       (update_stats env_ok (Player.id sample_player) sample_stats
          (world sample_pruned)).2).
Proof.
  assert (find (has_id (Player.id sample_player))
               (players (world sample_pruned)) = Some sample_player)
    as Hsome by (vm_compute; reflexivity).
  assert (storable sample_stats = true) as Hs by (vm_compute; reflexivity).
  split; [exact Hsome|]. split; [exact Hs|].
  exact (proj1 (update_stats_then_get_player env_ok
                  (Player.id sample_player) sample_stats
                  (world sample_pruned) sample_player Hsome Hs)).
Defined.

Lemma delete_player_then_not_found_witness :
  find (has_id (Player.id sample_player)) (players (world sample_pruned))
  = Some sample_player
  ∧ get_player (Player.id sample_player)
      (delete_player env_ok (Player.id sample_player)
         (world sample_pruned)).2
    = (Raised (HTTPException 404 "Player not found"),
       (delete_player env_ok (Player.id sample_player)
          (world sample_pruned)).2)
  ∧ players (delete_player env_ok (Player.id sample_player)
               (world sample_pruned)).2 = [].
Proof.
  assert (find (has_id (Player.id sample_player))
               (players (world sample_pruned)) = Some sample_player)
    as Hsome by (vm_compute; reflexivity).
  destruct (delete_player_then_not_found env_ok (Player.id sample_player)
              (world sample_pruned) sample_player Hsome)
    as (Hget & _ & _ & Hpl).
  split; [exact Hsome|]. split; [exact Hget|].
  rewrite Hpl. vm_compute. reflexivity.
Defined.

Lemma player_to_dict_inj_witness :
  player_to_dict (seed_cricket "a") = player_to_dict (seed_cricket "a")
  ∧ seed_cricket "a" = seed_cricket "a".
Proof.
  assert (player_to_dict (seed_cricket "a")
          = player_to_dict (seed_cricket "a")) as H by reflexivity.
  split; [exact H|].
  exact (player_to_dict_inj (seed_cricket "a") (seed_cricket "a") H).
Defined.

(** ** Reading one row and listing them all *)

(** X16.  [get_player] never changes the state and agrees with
    [list_players]: when it returns a dict, the dict carries the requested
    id and is one of those that [list_players] without a filter returns;
    it raises 404 exactly when no listed dict carries the id. *)
Theorem get_player_agrees_with_list_players player_id w :
  (get_player player_id w).2 = w
  ∧ (∀ d, (get_player player_id w).1 = Returned d →
          d !! "id" = Some (VStr player_id)
          ∧ ∃ listed, list_players None w = (Returned listed, w)
                      ∧ d ∈ listed)
  ∧ ((get_player player_id w).1
     = Raised (HTTPException 404 "Player not found")
     ↔ ∀ listed d, list_players None w = (Returned listed, w) →
                   d ∈ listed → d !! "id" ≠ Some (VStr player_id))
  ∧ ∀ e, (get_player player_id w).1 = Raised e →
         e = HTTPException 404 "Player not found".
Proof.
  rewrite get_player_run. simpl. split; [done|].
  destruct (find (has_id player_id) (players w)) as [p|] eqn:Hp.
  - pose proof (find_has_id _ _ _ Hp) as Hid.
    apply find_some in Hp as [Hin _]. apply list_elem_of_In in Hin.
    split; [|split; [|done]].
    + intros d [= <-]. split; [by rewrite <- Hid|].
      eexists. split; [reflexivity|]. by apply list_elem_of_fmap_2.
    + split; [done|]. intros Hnone.
      destruct (Hnone (player_to_dict <$> players w) (player_to_dict p)
                  eq_refl); [by apply list_elem_of_fmap_2|].
      by rewrite <- Hid.
  - split; [done|]. split; [|by intros e [= <-]].
    split; [|done]. intros _ listed d [= <-].
    intros (q & -> & Hq)%list_elem_of_fmap.
    change (Some (VStr (Player.id q)) ≠ Some (VStr player_id)).
    intros [= Hid]. apply list_elem_of_In in Hq.
    pose proof (find_none _ _ Hp _ Hq) as Hno.
    unfold has_id in Hno. by rewrite bool_decide_eq_true_2 in Hno.
Qed.

Lemma get_player_agrees_with_list_players_witness :
  (get_player (Player.id sample_player) (world sample_pruned)).1
  = Returned (player_to_dict sample_player)
  ∧ player_to_dict sample_player !! "id"
    = Some (VStr (Player.id sample_player))
  ∧ ∃ listed,
      list_players None (world sample_pruned)
      = (Returned listed, world sample_pruned)
      ∧ player_to_dict sample_player ∈ listed.
Proof.
  assert ((get_player (Player.id sample_player) (world sample_pruned)).1
          = Returned (player_to_dict sample_player)) as Hget
    by (vm_compute; reflexivity).
  split; [exact Hget|].
  exact (proj1 (proj2 (get_player_agrees_with_list_players
                         (Player.id sample_player) (world sample_pruned)))
           (player_to_dict sample_player) Hget).
Defined.
